(** * Offline Cache Gateway (sw.js): a shallow embedding and its properties

    The service worker of the site is modelled as a family of handlers
    (install, activate, fetch, message) running against an explicit host:
    the browser's Cache Storage, the network and the console.  Every
    handler is a computation in a small monad that threads the host state,
    may throw (a rejected promise) and records the host calls it makes. *)

From Stdlib Require Import ZArith Ascii String List Bool Lia.
From stdpp Require Import gmap strings list fin_maps.

Local Open Scope string_scope.
Local Open Scope Z_scope.

(** ** Data model *)

(** A response snapshot: status, status text and body. *)
Record Response := mkResponse {
  status : Z;
  statusText : string;
  body : string
}.

#[global] Instance Response_eq_dec : EqDecision Response.
Proof. solve_decision. Defined.

(** [Response.ok]: the status is in the range 200-299. *)
Definition ok (r : Response) : bool :=
  (200 <=? status r) && (status r <=? 299).

(** A request as the worker reads it: method, URL and destination. *)
Record Request := mkRequest {
  method : string;
  url : string;
  destination : string
}.

(** A message event.  [data_type] is [event.data.type] when [event.data]
    is an object with a string [type] property and [None] otherwise;
    [ports] are the identifiers of the transferred reply ports. *)
Record MessageEvent := mkMessageEvent {
  data_type : option string;
  ports : list nat
}.

(** The reply posted for a version query, [{ version: ... }]. *)
Record VersionReply := mkVersionReply { version : string }.

(** A cache maps the keys of requests (their URLs without the fragment,
    see [strip_fragment]) to snapshots; the Cache Storage is the list of
    named caches in creation order ([caches.keys()] order, which is also
    the order in which [caches.match] searches). *)
Abbreviation Cache := (gmap string Response).
Abbreviation CacheStorage := (list (string * gmap string Response)).

(** Host calls made by the worker, in the order they are issued, with
    their arguments. *)
Inductive Event :=
| EConsoleLog (args : list string)
| EConsoleError (args : list string)
| EFetch (u : string)
| ECachesOpen (name : string)
| ECachesMatch (u : string)
| ECachesKeys
| ECachesDelete (name : string)
| ECacheAddAll (name : string) (urls : list string)
| ECachePut (name : string) (u : string) (r : Response)
| ESkipWaiting
| EClientsClaim
| EPostMessage (port : nat) (reply : VersionReply).

#[global] Instance VersionReply_eq_dec : EqDecision VersionReply.
Proof. solve_decision. Defined.

#[global] Instance Event_eq_dec : EqDecision Event.
Proof. solve_decision. Defined.

(** The host state the worker acts on.  [faults] is the schedule of
    Cache Storage failures: each Cache Storage call consumes its head, and
    the call rejects when the head is [true].  An empty schedule is a
    storage that never fails. *)
Record Host := mkHost {
  storage : CacheStorage;
  faults : list bool
}.

(** ** The monad of handlers *)

Inductive Outcome (A : Type) :=
| Return (a : A)
| Throw (e : string).
Arguments Return {A} a.
Arguments Throw {A} e.

Record Run (A : Type) := mkRun {
  outcome : Outcome A;
  host : Host;
  events : list Event
}.
Arguments mkRun {A} _ _ _.
Arguments outcome {A} _.
Arguments host {A} _.
Arguments events {A} _.

Definition M (A : Type) : Type := Host -> Run A.

Definition ret {A} (a : A) : M A := fun h => mkRun (Return a) h [].

Definition throw {A} (e : string) : M A := fun h => mkRun (Throw e) h [].

Definition bind {A B} (m : M A) (f : A -> M B) : M B := fun h =>
  match m h with
  | mkRun (Return a) h1 ev1 =>
      match f a h1 with
      | mkRun o h2 ev2 => mkRun o h2 (ev1 ++ ev2)
      end
  | mkRun (Throw e) h1 ev1 => mkRun (Throw e) h1 ev1
  end.

(** [try { m } catch (e) { handler e }]. *)
Definition try_catch {A} (m : M A) (handler : string -> M A) : M A := fun h =>
  match m h with
  | mkRun (Return a) h1 ev1 => mkRun (Return a) h1 ev1
  | mkRun (Throw e) h1 ev1 =>
      match handler e h1 with
      | mkRun o h2 ev2 => mkRun o h2 (ev1 ++ ev2)
      end
  end.

Definition emit (e : Event) : M unit := fun h => mkRun (Return tt) h [e].

Declare Scope gateway_scope.
Delimit Scope gateway_scope with gw.
Notation "x <- m ;; k" := (bind m (fun x => k))
  (at level 100, m at next level, right associativity) : gateway_scope.
Notation "m ;; k" := (bind m (fun _ => k))
  (at level 100, right associativity) : gateway_scope.
Local Open Scope gateway_scope.

(** ** Pure operations on the Cache Storage *)

Definition cache_names (st : CacheStorage) : list string := st.*1.

(** [caches.open]: create the cache at the end of the list if absent. *)
Fixpoint storage_open (name : string) (st : CacheStorage) : CacheStorage :=
  match st with
  | [] => [(name, ∅)]
  | (n, c) :: st' =>
      if decide (n = name) then (n, c) :: st'
      else (n, c) :: storage_open name st'
  end.

(** [cache.put] on the cache called [name]; nothing if it was deleted. *)
Fixpoint storage_put (name u : string) (r : Response) (st : CacheStorage)
  : CacheStorage :=
  match st with
  | [] => []
  | (n, c) :: st' =>
      if decide (n = name) then (n, <[u := r]> c) :: st'
      else (n, c) :: storage_put name u r st'
  end.

Definition storage_put_all (name : string) (entries : list (string * Response))
    (st : CacheStorage) : CacheStorage :=
  foldl (fun acc e => storage_put name e.1 e.2 acc) st entries.

(** [caches.delete]. *)
Definition storage_delete (name : string) (st : CacheStorage) : CacheStorage :=
  filter (fun p => p.1 ≠ name) st.

(** The first hit for the key [u], searching the caches in creation
    order.  [caches.match] looks up the key of its request: see
    [matched]. *)
Fixpoint storage_match (st : CacheStorage) (u : string) : option Response :=
  match st with
  | [] => None
  | (_, c) :: st' =>
      match c !! u with
      | Some r => Some r
      | None => storage_match st' u
      end
  end.

(** The entry for [u] in the cache called [name]. *)
Fixpoint storage_lookup (name u : string) (st : CacheStorage) : option Response :=
  match st with
  | [] => None
  | (n, c) :: st' =>
      if decide (n = name) then c !! u else storage_lookup name u st'
  end.

(** The Cache API compares request URLs without their fragment: the key
    of a request is its URL up to the first [#]. *)
Fixpoint strip_fragment (u : string) : string :=
  match u with
  | EmptyString => EmptyString
  | String c u' =>
      if decide (c = "#"%char) then EmptyString
      else String c (strip_fragment u')
  end.

(** What [caches.match] answers for a request with URL [u]. *)
Definition matched (st : CacheStorage) (u : string) : option Response :=
  storage_match st (strip_fragment u).

(** The effect on the storage of one [cache.put] call that lands: the
    entry is written under the key of the request.  The Cache API refuses
    a 206 response, and a cache deleted meanwhile is not created again. *)
Definition land_put (st : CacheStorage) (e : Event) : CacheStorage :=
  match e with
  | ECachePut name u r =>
      if decide (status r = 206) then st
      else storage_put name (strip_fragment u) r st
  | _ => st
  end.

(** The host once the puts issued during a run have landed.  A put is
    not awaited by the worker: after the run the host is [host r], and it
    becomes [landed r] when the puts complete (if they do). *)
Definition landed {A} (r : Run A) : Host :=
  mkHost (foldl land_put (storage (host r)) (events r)) (faults (host r)).

(** ** The worker *)

Definition CACHE_NAME : string := "eternadata-v1.0.0".
Definition OFFLINE_PAGE : string := "/offline.html".

Definition STATIC_CACHE : list string :=
  [ "/"; "/index.html"; "/assets/styles.css"; "/assets/script.js";
    "/assets/logo.svg"; "/assets/favicon.svg"; "/offline.html" ].

(** The synthesized responses of the worker.  A [Response] built without
    a [statusText] has the empty status text. *)
Definition offline_response : Response := mkResponse 503 "" "Offline".
Definition asset_unavailable_response : Response :=
  mkResponse 404 "Not Found" "Asset not available offline".

(** The responses [cache.addAll] stores: ok responses other than 206. *)
Definition addAll_accepts (r : Response) : bool :=
  ok r && negb (bool_decide (status r = 206)).

Section Gateway.

(** [self.location.origin], a serialized origin such as
    [https://example.org]: scheme, host and port, without [#]. *)
Variable origin : string.

(** The network as seen by one handler run: what [fetch] of a URL
    settles to.  [None] is a rejected fetch (network error). *)
Variable net : string -> option Response.

(** *** Host calls *)

(** A string given where a request is expected is parsed against the
    worker's location; the worker only passes absolute paths. *)
Definition resolve (u : string) : string :=
  if String.prefix "/" u then origin +:+ u else u.

(** One Cache Storage call: consumes the head of the fault schedule. *)
Definition storage_call : M unit := fun h =>
  match faults h with
  | [] => mkRun (Return tt) h []
  | b :: fs =>
      let h' := mkHost (storage h) fs in
      if b then mkRun (Throw "UnknownError: cache storage failure") h' []
      else mkRun (Return tt) h' []
  end.

Definition modify_storage (f : CacheStorage -> CacheStorage) : M unit :=
  fun h => mkRun (Return tt) (mkHost (f (storage h)) (faults h)) [].

Definition fetch (u : string) : M Response :=
  emit (EFetch u) ;;
  match net u with
  | Some r => ret r
  | None => throw "TypeError: Failed to fetch"
  end.

(** The settling of an issued [caches.open(name)]: the cache is created
    if absent. *)
Definition caches_open_settled (name : string) : M string :=
  storage_call ;;
  modify_storage (storage_open name) ;;
  ret name.

(** [await caches.open(name)]. *)
Definition caches_open (name : string) : M string :=
  emit (ECachesOpen name) ;;
  caches_open_settled name.

(** [await caches.match(request)], the request having URL [u]. *)
Definition caches_match (u : string) : M (option Response) :=
  emit (ECachesMatch u) ;;
  storage_call ;;
  fun h => mkRun (Return (matched (storage h) u)) h [].

Definition caches_keys : M (list string) :=
  emit ECachesKeys ;;
  storage_call ;;
  fun h => mkRun (Return (cache_names (storage h))) h [].

Definition caches_delete (name : string) : M bool :=
  emit (ECachesDelete name) ;;
  storage_call ;;
  fun h =>
    mkRun (Return (bool_decide (name ∈ cache_names (storage h))))
          (mkHost (storage_delete name (storage h)) (faults h)) [].

(** [cache.put(request, response)] whose promise is not awaited: the
    call is issued and the handler goes on.  The entry is written later,
    when the put lands (see [landed]); a rejection is not observed. *)
Definition cache_put_unawaited (name u : string) (r : Response) : M unit :=
  emit (ECachePut name u r).

Fixpoint fetch_all (urls : list string) : option (list Response) :=
  match urls with
  | [] => Some []
  | u :: urls' =>
      match net u, fetch_all urls' with
      | Some r, Some rs => Some (r :: rs)
      | _, _ => None
      end
  end.

(** [cache.addAll(requests)]: every request is fetched; the promise
    rejects, and nothing is stored, unless every fetch settles to a
    response that [addAll] accepts; otherwise all entries are stored.
    The requests are made from the worker's strings, which carry no
    fragment: each resolved URL is its own key. *)
Definition cache_addAll (name : string) (requests : list string) : M unit :=
  let urls := resolve <$> requests in
  emit (ECacheAddAll name urls) ;;
  storage_call ;;
  fun h =>
    let fetched := EFetch <$> urls in
    match fetch_all urls with
    | Some rs =>
        if forallb addAll_accepts rs
        then mkRun (Return tt)
               (mkHost (storage_put_all name (zip urls rs) (storage h)) (faults h))
               fetched
        else mkRun (Throw "TypeError: bad response status") h fetched
    | None => mkRun (Throw "TypeError: Failed to fetch") h fetched
    end.

(** [Promise.all] over calls that have all been issued: every call
    runs; the result rejects with the first rejection. *)
Fixpoint promise_all {A} (ms : list (M A)) : M (list A) := fun h =>
  match ms with
  | [] => mkRun (Return []) h []
  | m :: ms' =>
      match m h with
      | mkRun o1 h1 ev1 =>
          match promise_all ms' h1 with
          | mkRun o2 h2 ev2 =>
              mkRun
                match o1, o2 with
                | Return a, Return l => Return (a :: l)
                | Throw e, _ => Throw e
                | Return _, Throw e => Throw e
                end
                h2 (ev1 ++ ev2)
          end
      end
  end.

(** *** install *)

(** The listener issues [caches.open(CACHE_NAME)] while building the
    promise chain it hands to [waitUntil], then calls
    [self.skipWaiting()] synchronously; the chain makes progress
    afterwards (the open settles, then [addAll], or the error log). *)
Definition install : M unit :=
  emit (EConsoleLog ["ServiceWorker installing..."]) ;;
  emit (ECachesOpen CACHE_NAME) ;;
  emit ESkipWaiting ;;
  try_catch
    (cache <- caches_open_settled CACHE_NAME ;;
     emit (EConsoleLog ["Caching static resources"]) ;;
     cache_addAll cache STATIC_CACHE)
    (fun error =>
       emit (EConsoleError ["Failed to cache resources:"; error])).

(** *** activate *)

(** The function mapped over the cache names: the promise of the
    deletion for a stale name, [undefined] for the current one. *)
Definition delete_if_old (cacheName : string) : M unit :=
  if decide (cacheName ≠ CACHE_NAME) then
    emit (EConsoleLog ["Deleting old cache:"; cacheName]) ;;
    caches_delete cacheName ;;
    ret tt
  else ret tt.

Definition activate : M unit :=
  emit (EConsoleLog ["ServiceWorker activating..."]) ;;
  cacheNames <- caches_keys ;;
  promise_all (delete_if_old <$> cacheNames) ;;
  emit EClientsClaim.

(** *** fetch *)

Definition handleDocumentRequest (request : Request) : M (option Response) :=
  try_catch
    (networkResponse <- fetch (url request) ;;
     if ok networkResponse then
       cache <- caches_open CACHE_NAME ;;
       cache_put_unawaited cache (url request) networkResponse ;;
       ret (Some networkResponse)
     else throw "Error: Network response not ok")
    (fun _ =>
       cachedResponse <- caches_match (url request) ;;
       match cachedResponse with
       | Some r => ret (Some r)
       | None => caches_match (resolve OFFLINE_PAGE)
       end).

Definition handleAssetRequest (request : Request) : M (option Response) :=
  cachedResponse <- caches_match (url request) ;;
  match cachedResponse with
  | Some r => ret (Some r)
  | None =>
      try_catch
        (networkResponse <- fetch (url request) ;;
         (if ok networkResponse then
            cache <- caches_open CACHE_NAME ;;
            cache_put_unawaited cache (url request) networkResponse
          else ret tt) ;;
         ret (Some networkResponse))
        (fun _ => ret (Some asset_unavailable_response))
  end.

(** The value is [Some r] for a response object and [None] for
    [undefined]. *)
Definition handleRequest (request : Request) : M (option Response) :=
  try_catch
    (if decide (destination request = "document") then
       handleDocumentRequest request
     else handleAssetRequest request)
    (fun error =>
       emit (EConsoleError ["Request handling error:"; error]) ;;
       if decide (destination request = "document") then
         caches_match (resolve OFFLINE_PAGE)
       else ret (Some offline_response)).

(** What the fetch listener does with an event: it returns without
    calling [respondWith] (the request takes the default network path),
    or it responds with the settled value of [handleRequest]. *)
Inductive Interception :=
| PassThrough
| RespondWith (v : option Response).

Definition onFetch (request : Request) : M Interception :=
  if decide (method request ≠ "GET") then ret PassThrough
  else if negb (String.prefix origin (url request)) then ret PassThrough
  else v <- handleRequest request ;; ret (RespondWith v).

(** *** message *)

Definition onMessage (event : MessageEvent) : M unit :=
  match data_type event with
  | None => ret tt
  | Some type =>
      if decide (type = "") then ret tt
      else if decide (type = "SKIP_WAITING") then emit ESkipWaiting
      else if decide (type = "GET_VERSION") then
        match ports event with
        | port :: _ => emit (EPostMessage port (mkVersionReply CACHE_NAME))
        | [] => throw "TypeError: Cannot read properties of undefined (reading 'postMessage')"
        end
      else emit (EConsoleLog ["Unknown message type:"; type])
  end.

End Gateway.


(** ** Origins, invariants and sequences of operations *)

(** The origin of a serialized http(s) URL: scheme, host and port, that
    is, everything before the first slash that follows [://].  A string
    without [://] has the opaque origin [null]. *)
Fixpoint until_slash (s : string) : string :=
  match s with
  | EmptyString => EmptyString
  | String c s' =>
      if decide (c = "/"%char) then EmptyString else String c (until_slash s')
  end.

Definition url_origin (u : string) : string :=
  match String.index 0 "://" u with
  | Some n =>
      (substring 0 (n + 3) u +:+
       until_slash (substring (n + 3) (String.length u - (n + 3)) u))%nat
  | None => "null"
  end.

(** A storage whose calls never fail. *)
Definition reliable (h : Host) : Prop := faults h = [].

(** The lookup issued first does not fail. *)
Definition first_call_succeeds (h : Host) : Prop := hd false (faults h) = false.

(** The first [n] Cache Storage calls do not fail. *)
Definition calls_succeed (n : nat) (h : Host) : Prop :=
  Forall (fun b => b = false) (take n (faults h)).

(** A string without [#], as every serialized origin is. *)
Definition fragment_free (s : string) : Prop := strip_fragment s = s.

(** Every stored snapshot is a successful response. *)
Definition cache_sound (c : gmap string Response) : Prop :=
  map_Forall (fun _ r => ok r = true) c.

Definition store_sound (st : CacheStorage) : Prop :=
  Forall (fun p => cache_sound p.2) st.

(** The operations the host can run on the gateway.  For a fetch,
    [lands] tells whether the put issued by the handler has landed. *)
Inductive Operation :=
| OpInstall
| OpActivate
| OpFetch (request : Request) (lands : bool)
| OpMessage (event : MessageEvent).

Definition run_op (origin : string) (net : string -> option Response)
    (op : Operation) (h : Host) : Host :=
  match op with
  | OpInstall => host (install origin net h)
  | OpActivate => host (activate h)
  | OpFetch request lands =>
      if lands then landed (onFetch origin net request h)
      else host (onFetch origin net request h)
  | OpMessage event => host (onMessage event h)
  end.

(** A run of the gateway: operations in order, each with the network it
    meets. *)
Fixpoint run_ops (origin : string)
    (steps : list ((string -> option Response) * Operation)) (h : Host) : Host :=
  match steps with
  | [] => h
  | (net, op) :: steps' => run_ops origin steps' (run_op origin net op h)
  end.

(** The same request handled [n] times in a row; the values are
    collected in order. *)
Fixpoint handle_repeatedly (origin : string) (net : string -> option Response)
    (n : nat) (request : Request) : M (list (option Response)) :=
  match n with
  | O => ret []
  | S n' =>
      v <- handleRequest origin net request ;;
      vs <- handle_repeatedly origin net n' request ;;
      ret (v :: vs)
  end.

(** Requests served one after the other, each with the network it
    meets; [lands] tells whether the put issued by that run has landed
    before the next request. *)
Fixpoint serve (origin : string)
    (steps : list ((string -> option Response) * Request * bool))
    (h : Host) : Host :=
  match steps with
  | [] => h
  | (net, request, lands) :: steps' =>
      serve origin steps'
        (if lands then landed (handleRequest origin net request h)
         else host (handleRequest origin net request h))
  end.

(** Install followed by activate, as the host orders them. *)
Definition install_then_activate (origin : string)
    (net : string -> option Response) : M unit :=
  install origin net ;; activate.

(** A fetch settles to something [cache.addAll] refuses: a network error
    or a response that is not ok. *)
Definition fetch_fails (net : string -> option Response) (u : string) : Prop :=
  match net u with
  | None => True
  | Some r => ok r = false
  end.

(** The URLs fetched from the network during a run, in order. *)
Definition fetched (evs : list Event) : list string :=
  omap (fun e => match e with EFetch u => Some u | _ => None end) evs.

(** The events that reach the Cache Storage or the network. *)
Definition uses_storage_or_network (e : Event) : bool :=
  match e with
  | EFetch _ | ECachesOpen _ | ECachesMatch _ | ECachesKeys
  | ECachesDelete _ | ECacheAddAll _ _ | ECachePut _ _ _ => true
  | _ => false
  end.

(** No cache other than the one called [name] holds an entry for [u]. *)
Definition only_in (name u : string) (st : CacheStorage) : Prop :=
  ∀ n c, (n, c) ∈ st → n ≠ name → c !! u = None.

(** Every manifest fetch settles to a response [cache.addAll] accepts. *)
Definition manifest_available (origin : string)
    (net : string -> option Response) : Prop :=
  ∀ q, q ∈ STATIC_CACHE →
       ∃ r, net (resolve origin q) = Some r ∧ addAll_accepts r = true.

(** The number of Cache Storage calls the fault schedule makes fail. *)
Definition failures (h : Host) : nat :=
  length (filter (fun b => b = true) (faults h)).

(** Sample hosts and networks used in the examples below. *)
Definition site : string := "https://eternadata.github.io".
Definition offline_net : string -> option Response := fun _ => None.
Definition online_net : string -> option Response :=
  fun u => Some (mkResponse 200 "OK" u).
Definition logo_missing_net : string -> option Response :=
  fun u => if decide (u = site +:+ "/assets/logo.svg") then None
           else Some (mkResponse 200 "OK" u).
Definition server_error_net : string -> option Response :=
  fun u => Some (mkResponse 500 "Internal Server Error" u).
Definition empty_host : Host := mkHost [] [].
Definition installed_host : Host := host (install site online_net empty_host).

(** * Properties *)

(** ** Running the monad *)

Ltac gw_unfold :=
  unfold handleDocumentRequest, handleAssetRequest,
    caches_match, caches_open, caches_open_settled, caches_keys,
    caches_delete, cache_put_unawaited, fetch, storage_call, modify_storage,
    bind, try_catch, emit, ret, throw in *;
  cbn [outcome host events storage faults app] in *.

Ltac gw_case :=
  match goal with
  | |- context [match ?x with _ => _ end] =>
      match type of x with
      | list bool => destruct x as [|[] ?]
      | sumbool _ _ => destruct x
      | option _ => destruct x eqn:?
      | bool => destruct x eqn:?
      end; cbn [outcome host events storage faults app] in *
  end.

Lemma handleRequest_first_call origin net request h :
  head (events (handleRequest origin net request h)) =
  Some (if decide (destination request = "document")
        then EFetch (url request) else ECachesMatch (url request)).
Proof.
  unfold handleRequest. destruct h as [st fs].
  destruct (decide (destination request = "document")); gw_unfold;
    repeat gw_case; reflexivity.
Qed.

(** A non-document request always settles to a response object, whatever
    the network and the storage do. *)
Lemma handleRequest_asset_total origin net request h :
  destination request ≠ "document" →
  ∃ r, outcome (handleRequest origin net request h) = Return (Some r).
Proof.
  intros Hd. unfold handleRequest. destruct h as [st fs].
  destruct (decide (destination request = "document")); [done|].
  gw_unfold. repeat gw_case; eauto.
Qed.

(** The value of a document request on a storage that does not fail. *)
Lemma handleRequest_document_reliable origin net request h :
  destination request = "document" →
  reliable h →
  outcome (handleRequest origin net request h) =
  Return
    match net (url request) with
    | Some r =>
        if ok r then Some r
        else match matched (storage h) (url request) with
             | Some c => Some c
             | None => matched (storage h) (resolve origin OFFLINE_PAGE)
             end
    | None =>
        match matched (storage h) (url request) with
        | Some c => Some c
        | None => matched (storage h) (resolve origin OFFLINE_PAGE)
        end
    end.
Proof.
  intros Hd Hr. unfold handleRequest. destruct h as [st fs].
  unfold reliable in Hr. simpl in Hr. subst fs.
  destruct (decide (destination request = "document")); [|done].
  gw_unfold. repeat gw_case; reflexivity.
Qed.

(** ** Error containment of [handleRequest] *)

(** C1, the code at the failing input: with the network down and neither
    the page nor the offline page in the Cache Storage, an admitted
    same-origin document request settles to [undefined], not to a
    response object.  Both fallbacks of the document path return
    [caches.match(OFFLINE_PAGE)] unguarded, where the path for the other
    destinations synthesizes a response.  When that last lookup itself
    fails, its rejection propagates to the caller. *)
Lemma handleRequest_document_without_offline_page :
  let request := mkRequest "GET" (site +:+ "/") "document" in
  method request = "GET" ∧
  url_origin (url request) = site ∧
  outcome (handleRequest site offline_net request empty_host) = Return None ∧
  outcome (handleRequest site offline_net request (mkHost [] [true; true])) =
    Throw "UnknownError: cache storage failure".
Proof. vm_compute. repeat split. Qed.

(** ** Classification *)

(** C4: an admitted request with destination [document] issues its
    network fetch first, before any Cache Storage call; an admitted
    request with any other destination issues its cache lookup first,
    before any network fetch. *)
Theorem onFetch_classification origin net request h :
  method request = "GET" →
  String.prefix origin (url request) = true →
  (destination request = "document" →
   ∃ rest, events (onFetch origin net request h) = EFetch (url request) :: rest) ∧
  (destination request ≠ "document" →
   ∃ rest, events (onFetch origin net request h) =
           ECachesMatch (url request) :: rest).
Proof.
  intros Hm Hp.
  assert (Hev : events (onFetch origin net request h) =
                events (handleRequest origin net request h)).
  { unfold onFetch. destruct (decide (method request ≠ "GET")); [done|].
    rewrite Hp. simpl. unfold bind, ret.
    destruct (handleRequest origin net request h) as [[v|e] h1 ev1]; simpl;
      [apply app_nil_r | reflexivity]. }
  rewrite Hev.
  pose proof (handleRequest_first_call origin net request h) as Hh.
  destruct (events (handleRequest origin net request h)) as [|e rest];
    [discriminate|].
  simpl in Hh. injection Hh as ->.
  split; intros Hd; destruct (decide (destination request = "document"));
    try done; eauto.
Qed.

Lemma onFetch_classification_witness :
  (∃ rest, events (onFetch site offline_net
                     (mkRequest "GET" (site +:+ "/") "document") installed_host) =
           EFetch (site +:+ "/") :: rest) ∧
  (∃ rest, events (onFetch site offline_net
                     (mkRequest "GET" (site +:+ "/assets/logo.svg") "image")
                     installed_host) =
           ECachesMatch (site +:+ "/assets/logo.svg") :: rest).
Proof.
  split.
  - apply (onFetch_classification site offline_net
             (mkRequest "GET" (site +:+ "/") "document") installed_host);
      reflexivity.
  - apply (onFetch_classification site offline_net
             (mkRequest "GET" (site +:+ "/assets/logo.svg") "image")
             installed_host); [reflexivity | reflexivity | discriminate].
Defined.

(** ** Network-first fallback *)

Lemma calls_succeed_S n st b fs :
  calls_succeed (S n) (mkHost st (b :: fs)) ↔
  b = false ∧ calls_succeed n (mkHost st fs).
Proof. unfold calls_succeed. simpl. by rewrite Forall_cons. Qed.




(** ** Synthesized failure responses *)

(** C6: for a non-document request that misses the Cache Storage and
    whose network fetch fails, the value is the synthesized response
    [404 Not Found] with body [Asset not available offline]; and whenever
    handling a non-document request throws, the value is the synthesized
    response [503] with body [Offline]. *)
Theorem handleRequest_synthesized_failures origin net request h :
  destination request ≠ "document" →
  (first_call_succeeds h →
   matched (storage h) (url request) = None →
   net (url request) = None →
   outcome (handleRequest origin net request h) =
   Return (Some (mkResponse 404 "Not Found" "Asset not available offline"))) ∧
  (∀ e, outcome (handleAssetRequest net request h) = Throw e →
   outcome (handleRequest origin net request h) =
   Return (Some (mkResponse 503 "" "Offline"))).
Proof.
  intros Hd. unfold handleRequest.
  destruct (decide (destination request = "document")); [done|].
  split.
  - intros Hf Hc Hn. destruct h as [st fs].
    unfold first_call_succeeds in Hf. cbn [storage faults] in Hc, Hf.
    gw_unfold. rewrite Hn.
    destruct fs as [|b fs]; simpl in Hf; [|subst b];
      cbn [outcome host events storage faults app];
      rewrite Hc; reflexivity.
  - intros e He. unfold try_catch.
    destruct (handleAssetRequest net request h) as [o h1 ev1].
    simpl in He. subst o. reflexivity.
Qed.

Lemma handleRequest_synthesized_failures_witness :
  outcome (handleRequest site offline_net
             (mkRequest "GET" (site +:+ "/assets/missing.png") "image")
             installed_host) =
    Return (Some (mkResponse 404 "Not Found" "Asset not available offline")) ∧
  outcome (handleRequest site offline_net
             (mkRequest "GET" (site +:+ "/assets/missing.png") "image")
             (mkHost [] [true])) =
    Return (Some (mkResponse 503 "" "Offline")).
Proof.
  split.
  - apply (handleRequest_synthesized_failures site offline_net
             (mkRequest "GET" (site +:+ "/assets/missing.png") "image")
             installed_host); [discriminate | reflexivity ..].
  - refine (proj2 (handleRequest_synthesized_failures site offline_net
                     (mkRequest "GET" (site +:+ "/assets/missing.png") "image")
                     (mkHost [] [true]) _)
                  "UnknownError: cache storage failure" _);
      [discriminate | reflexivity].
Defined.

(** ** Cache-first hits *)

Lemma handleRequest_asset_hit origin net request h cached :
  destination request ≠ "document" →
  first_call_succeeds h →
  matched (storage h) (url request) = Some cached →
  handleRequest origin net request h =
  mkRun (Return (Some cached)) (mkHost (storage h) (tail (faults h)))
        [ECachesMatch (url request)].
Proof.
  intros Hd Hf Hc. unfold handleRequest. destruct h as [st fs].
  unfold first_call_succeeds in Hf. cbn [storage faults] in Hc, Hf.
  destruct (decide (destination request = "document")); [done|].
  gw_unfold.
  destruct fs as [|b fs]; simpl in Hf; [|subst b];
    cbn [outcome host events storage faults app]; rewrite Hc; reflexivity.
Qed.

Lemma handle_repeatedly_hit origin net request h cached n :
  destination request ≠ "document" →
  calls_succeed n h →
  matched (storage h) (url request) = Some cached →
  handle_repeatedly origin net n request h =
  mkRun (Return (replicate n (Some cached)))
        (mkHost (storage h) (drop n (faults h)))
        (replicate n (ECachesMatch (url request))).
Proof.
  intros Hd. revert h. induction n as [|n IH]; intros h Hcalls Hc.
  - destruct h. reflexivity.
  - assert (Hfirst : first_call_succeeds h ∧
                     calls_succeed n (mkHost (storage h) (tail (faults h)))).
    { destruct h as [st [|b fs]]; simpl.
      - split; [done|]. unfold calls_succeed. simpl. by rewrite take_nil.
      - apply calls_succeed_S in Hcalls as [-> Hcalls]. done. }
    destruct Hfirst as [Hfirst Hrest].
    simpl. unfold bind.
    rewrite (handleRequest_asset_hit _ _ _ _ _ Hd Hfirst Hc).
    cbn [outcome host events]. rewrite (IH _ Hrest Hc).
    unfold ret. cbn [outcome host events storage faults app].
    rewrite app_nil_r.
    destruct h as [st [|b fs]]; simpl; [by rewrite drop_nil | reflexivity].
Qed.

(** C9 (as amended): when the Cache Storage holds a snapshot for a
    non-document request (under its URL without the fragment) and the
    cache lookups do not fail, handling the request any number of times
    in a row returns that same snapshot every time, issues no network
    fetch, and leaves the storage, hence every store entry, unchanged. *)
Theorem cache_first_hit_idempotent origin net request h cached n :
  destination request ≠ "document" →
  calls_succeed n h →
  matched (storage h) (url request) = Some cached →
  outcome (handle_repeatedly origin net n request h) =
    Return (replicate n (Some cached)) ∧
  storage (host (handle_repeatedly origin net n request h)) = storage h ∧
  (∀ u, EFetch u ∉ events (handle_repeatedly origin net n request h)).
Proof.
  intros Hd Hcalls Hc.
  rewrite (handle_repeatedly_hit _ _ _ _ _ n Hd Hcalls Hc). simpl.
  split; [reflexivity|]. split; [reflexivity|].
  intros u Hin. apply elem_of_replicate in Hin as [Heq _]. discriminate.
Qed.

Lemma cache_first_hit_idempotent_witness :
  outcome (handle_repeatedly site online_net 3
             (mkRequest "GET" (site +:+ "/assets/logo.svg#v2") "image")
             installed_host) =
    Return (replicate 3 (Some (mkResponse 200 "OK" (site +:+ "/assets/logo.svg")))) ∧
  storage (host (handle_repeatedly site online_net 3
                   (mkRequest "GET" (site +:+ "/assets/logo.svg#v2") "image")
                   installed_host)) = storage installed_host.
Proof.
  destruct (cache_first_hit_idempotent site online_net
           (mkRequest "GET" (site +:+ "/assets/logo.svg#v2") "image")
           installed_host
           (mkResponse 200 "OK" (site +:+ "/assets/logo.svg")) 3
           ltac:(discriminate) ltac:(constructor) eq_refl) as (Ho & Hh & _).
  exact (conj Ho Hh).
Defined.

(** C9 fails as stated: with the snapshot of the request in the store, a
    failure of the cache lookup makes the handler return the synthesized
    [503 Offline] response, not the stored snapshot. *)
Lemma handleRequest_asset_lookup_failure :
  let request := mkRequest "GET" (site +:+ "/assets/logo.svg") "image" in
  let h := mkHost (storage installed_host) [true] in
  storage_lookup CACHE_NAME (url request) (storage h) =
    Some (mkResponse 200 "OK" (site +:+ "/assets/logo.svg")) ∧
  outcome (handleRequest site online_net request h) =
    Return (Some (mkResponse 503 "" "Offline")).
Proof. vm_compute. repeat split. Qed.

(** ** Control messages *)

(** C10 (as amended): a [GET_VERSION] message that carries at least one
    reply port yields exactly one reply, [{ version: CACHE_NAME }], posted
    on its first port, and nothing else; a message whose type is a
    non-empty string other than [SKIP_WAITING] and [GET_VERSION] is logged,
    produces no reply and does not throw.  Neither touches the host. *)
Theorem onMessage_contract event h :
  (∀ port others,
     data_type event = Some "GET_VERSION" →
     ports event = port :: others →
     onMessage event h =
     mkRun (Return tt) h [EPostMessage port (mkVersionReply CACHE_NAME)]) ∧
  (∀ type,
     data_type event = Some type →
     type ≠ "" → type ≠ "SKIP_WAITING" → type ≠ "GET_VERSION" →
     onMessage event h =
     mkRun (Return tt) h [EConsoleLog ["Unknown message type:"; type]]).
Proof.
  split.
  - intros port others Ht Hp. unfold onMessage. rewrite Ht, Hp. reflexivity.
  - intros type Ht H1 H2 H3. unfold onMessage. rewrite Ht.
    repeat (destruct (decide _); [done|]). reflexivity.
Qed.

Lemma onMessage_contract_witness :
  onMessage (mkMessageEvent (Some "GET_VERSION") [7%nat]) empty_host =
    mkRun (Return tt) empty_host
          [EPostMessage 7 (mkVersionReply "eternadata-v1.0.0")] ∧
  onMessage (mkMessageEvent (Some "PING") []) empty_host =
    mkRun (Return tt) empty_host [EConsoleLog ["Unknown message type:"; "PING"]].
Proof.
  split.
  - apply (proj1 (onMessage_contract
                    (mkMessageEvent (Some "GET_VERSION") [7%nat]) empty_host)
                 7%nat []); reflexivity.
  - apply (proj2 (onMessage_contract (mkMessageEvent (Some "PING") []) empty_host)
                 "PING");
      [reflexivity | discriminate ..].
Defined.

(** C10 fails as stated: a [GET_VERSION] message that carries no reply
    port makes the listener throw without posting any reply; and a
    message whose type is the empty string is dropped without being
    logged. *)
Lemma onMessage_without_port_or_type :
  onMessage (mkMessageEvent (Some "GET_VERSION") []) empty_host =
    mkRun (Throw "TypeError: Cannot read properties of undefined (reading 'postMessage')")
          empty_host [] ∧
  onMessage (mkMessageEvent (Some "") []) empty_host =
    mkRun (Return tt) empty_host [].
Proof. split; reflexivity. Qed.

(** ** Admission filter *)

(** What the listener's two guards do establish: a request whose method
    is not [GET], or whose URL string does not start with the origin
    string, is passed through without any host call. *)
Lemma onFetch_declines origin net request h :
  method request ≠ "GET" ∨ String.prefix origin (url request) = false →
  onFetch origin net request h = mkRun (Return PassThrough) h [].
Proof.
  intros [Hm|Hp]; unfold onFetch.
  - destruct (decide (method request ≠ "GET")); [reflexivity | done].
  - destruct (decide (method request ≠ "GET")); [reflexivity|].
    rewrite Hp. reflexivity.
Qed.

(** C3, the code at the failing input: a GET request to another origin
    whose URL string merely starts with the worker's origin string is
    admitted and handled by the cache-first strategy (the Cache Storage
    is consulted, then the network), instead of being passed through. *)
Theorem onFetch_admits_foreign_origin :
  let request :=
    mkRequest "GET" "https://eternadata.github.io.evil.example/a.js" "script" in
  url_origin (url request) = "https://eternadata.github.io.evil.example" ∧
  url_origin (url request) ≠ site ∧
  onFetch site offline_net request empty_host =
  mkRun (Return (RespondWith (Some asset_unavailable_response))) empty_host
        [ECachesMatch (url request); EFetch (url request)].
Proof. vm_compute. repeat split. discriminate. Qed.

(** ** Facts about the Cache Storage operations *)

Lemma cache_names_storage_open name st n :
  n ∈ cache_names (storage_open name st) ↔ n = name ∨ n ∈ cache_names st.
Proof.
  unfold cache_names. induction st as [|[m c] st IH]; simpl.
  - rewrite list_elem_of_singleton. split; [auto|]. intros [?|H]; [done|].
    by apply elem_of_nil in H.
  - destruct (decide (m = name)) as [->|Hne]; simpl.
    + rewrite elem_of_cons. intuition congruence.
    + rewrite !elem_of_cons, IH. tauto.
Qed.

Lemma cache_names_storage_put name u r st :
  cache_names (storage_put name u r st) = cache_names st.
Proof.
  unfold cache_names. induction st as [|[m c] st IH]; simpl; [done|].
  destruct (decide (m = name)); simpl; [done | by f_equal].
Qed.

Lemma cache_names_storage_put_all name entries st :
  cache_names (storage_put_all name entries st) = cache_names st.
Proof.
  unfold storage_put_all. revert st.
  induction entries as [|e entries IH]; intros st; simpl; [done|].
  by rewrite IH, cache_names_storage_put.
Qed.

Lemma cache_names_storage_delete name st n :
  n ∈ cache_names (storage_delete name st) ↔ n ∈ cache_names st ∧ n ≠ name.
Proof.
  unfold cache_names, storage_delete. rewrite !list_elem_of_fmap. split.
  - intros [[m c] [-> Hin]]. apply list_elem_of_filter in Hin as [Hne Hin].
    split; [exists (m, c); done | done].
  - intros [[[m c] [-> Hin]] Hne]. exists (m, c). split; [done|].
    apply list_elem_of_filter. done.
Qed.

Lemma storage_lookup_storage_delete name other u st :
  other ≠ name →
  storage_lookup name u (storage_delete other st) = storage_lookup name u st.
Proof.
  intros Hne. unfold storage_delete.
  induction st as [|[m c] st IH]; simpl; [done|].
  rewrite filter_cons. simpl.
  destruct (decide (m ≠ other)) as [Hm|Hm]; simpl.
  - destruct (decide (m = name)); [done | apply IH].
  - destruct (decide (m = name)) as [->|]; [|apply IH].
    exfalso. apply Hm. done.
Qed.

Lemma storage_lookup_storage_open name other u st :
  storage_lookup name u (storage_open other st) = storage_lookup name u st.
Proof.
  induction st as [|[m c] st IH]; simpl.
  - destruct (decide (other = name)); [apply lookup_empty | done].
  - destruct (decide (m = other)) as [->|Hne]; simpl; [done|].
    destruct (decide (m = name)); [done | apply IH].
Qed.

Lemma storage_lookup_storage_put_eq name u r st :
  name ∈ cache_names st →
  storage_lookup name u (storage_put name u r st) = Some r.
Proof.
  unfold cache_names. induction st as [|[m c] st IH]; simpl; intros Hin.
  - by apply elem_of_nil in Hin.
  - destruct (decide (m = name)) as [->|Hne]; simpl.
    + destruct (decide (name = name)); [apply lookup_insert_eq | done].
    + destruct (decide (m = name)); [done|]. apply IH.
      apply elem_of_cons in Hin as [?|?]; [congruence | done].
Qed.

Lemma storage_lookup_storage_put_ne name other u v r st :
  name ≠ other ∨ u ≠ v →
  storage_lookup name u (storage_put other v r st) = storage_lookup name u st.
Proof.
  intros Hne. induction st as [|[m c] st IH]; simpl; [done|].
  destruct (decide (m = other)) as [->|Hm]; simpl.
  - destruct (decide (other = name)) as [->|]; [|done].
    destruct Hne as [?|Hu]; [done|]. apply lookup_insert_ne. congruence.
  - destruct (decide (m = name)); [done | apply IH].
Qed.

Lemma storage_lookup_storage_put_cases name other u v r st :
  storage_lookup name u (storage_put other v r st) = storage_lookup name u st ∨
  name = other ∧ u = v ∧
  storage_lookup name u (storage_put other v r st) = Some r.
Proof.
  destruct (decide (name = other)) as [->|Hn];
    [|left; apply storage_lookup_storage_put_ne; auto].
  destruct (decide (u = v)) as [->|Hu];
    [|left; apply storage_lookup_storage_put_ne; auto].
  induction st as [|[m c] st IH]; simpl; [by left|].
  destruct (decide (m = other)) as [->|Hm]; simpl.
  - destruct (decide (other = other)); [|done].
    right. rewrite lookup_insert_eq. done.
  - destruct (decide (m = other)); [done | apply IH].
Qed.

Lemma store_sound_storage_open name st :
  store_sound st → store_sound (storage_open name st).
Proof.
  unfold store_sound. induction st as [|[m c] st IH]; simpl; intros Hs.
  - constructor; [|done]. simpl. apply map_Forall_empty.
  - destruct (decide (m = name)); [done|].
    inversion Hs; subst. constructor; [done | by apply IH].
Qed.

Lemma store_sound_storage_put name u r st :
  ok r = true → store_sound st → store_sound (storage_put name u r st).
Proof.
  intros Hok. unfold store_sound.
  induction st as [|[m c] st IH]; simpl; intros Hs; [done|].
  inversion Hs; subst.
  destruct (decide (m = name)); constructor; simpl in *; auto.
  by apply map_Forall_insert_2.
Qed.

Lemma store_sound_storage_put_all name entries st :
  Forall (fun e => ok e.2 = true) entries →
  store_sound st → store_sound (storage_put_all name entries st).
Proof.
  unfold storage_put_all. intros He. revert st.
  induction He as [|e entries Hok He IH]; intros st Hs; simpl; [done|].
  apply IH. by apply store_sound_storage_put.
Qed.

Lemma store_sound_storage_delete name st :
  store_sound st → store_sound (storage_delete name st).
Proof.
  unfold store_sound, storage_delete. intros Hs.
  apply Forall_forall. intros p Hp.
  apply list_elem_of_filter in Hp as [_ Hp].
  by apply (proj1 (Forall_forall _ _) Hs).
Qed.

(** ** Activation *)

(** One deletion callback: it leaves the storage alone, or (for a stale
    name only) deletes exactly that cache; when it fulfils on a stale
    name the cache is gone. *)
Lemma delete_if_old_storage name h :
  (storage (host (delete_if_old name h)) = storage h ∨
   name ≠ CACHE_NAME ∧
   storage (host (delete_if_old name h)) = storage_delete name (storage h)) ∧
  (∀ a, outcome (delete_if_old name h) = Return a →
        name ≠ CACHE_NAME →
        storage (host (delete_if_old name h)) = storage_delete name (storage h)) ∧
  (reliable h →
   reliable (host (delete_if_old name h)) ∧
   outcome (delete_if_old name h) = Return tt).
Proof.
  unfold delete_if_old, reliable. destruct h as [st fs].
  destruct (decide (name ≠ CACHE_NAME)) as [Hne|Heq].
  - gw_unfold. destruct fs as [|[] fs]; simpl; repeat split; auto;
      try discriminate; try done.
  - simpl. unfold ret. simpl. repeat split; auto. intros; done.
Qed.

Lemma promise_all_cons {A} (m : M A) (ms : list (M A)) h :
  promise_all (m :: ms) h =
  mkRun
    match outcome (m h), outcome (promise_all ms (host (m h))) with
    | Return a, Return l => Return (a :: l)
    | Throw e, _ => Throw e
    | Return _, Throw e => Throw e
    end
    (host (promise_all ms (host (m h))))
    (events (m h) ++ events (promise_all ms (host (m h)))).
Proof.
  simpl. destruct (m h) as [o1 h1 ev1]. simpl.
  destruct (promise_all ms h1). reflexivity.
Qed.

Lemma sweep_subset names h n :
  n ∈ cache_names (storage (host (promise_all (delete_if_old <$> names) h))) →
  n ∈ cache_names (storage h).
Proof.
  revert h. induction names as [|m ms IH]; intros h; [done|].
  rewrite fmap_cons, promise_all_cons. cbn [host].
  intros Hin. apply IH in Hin.
  destruct (delete_if_old_storage m h) as [[Hs|[_ Hs]] _];
    rewrite Hs in Hin; [done|].
  by apply cache_names_storage_delete in Hin as [? _].
Qed.

Lemma sweep_keeps_current names h u :
  storage_lookup CACHE_NAME u
    (storage (host (promise_all (delete_if_old <$> names) h))) =
  storage_lookup CACHE_NAME u (storage h) ∧
  (CACHE_NAME ∈ cache_names (storage h) →
   CACHE_NAME ∈
     cache_names (storage (host (promise_all (delete_if_old <$> names) h)))).
Proof.
  revert h. induction names as [|m ms IH]; intros h; [done|].
  rewrite fmap_cons, promise_all_cons. cbn [host].
  destruct (IH (host (delete_if_old m h))) as [IH1 IH2].
  destruct (delete_if_old_storage m h) as [[Hs|[Hne Hs]] _];
    rewrite Hs in IH1, IH2.
  - done.
  - rewrite storage_lookup_storage_delete in IH1 by done.
    split; [done|]. intros Hin. apply IH2.
    apply cache_names_storage_delete. done.
Qed.

Lemma sweep_sound names h :
  store_sound (storage h) →
  store_sound (storage (host (promise_all (delete_if_old <$> names) h))).
Proof.
  revert h. induction names as [|m ms IH]; intros h; [done|].
  rewrite fmap_cons, promise_all_cons. cbn [host].
  intros Hs. apply IH.
  destruct (delete_if_old_storage m h) as [[->|[_ ->]] _];
    [done | by apply store_sound_storage_delete].
Qed.

Lemma sweep_deletes names h l n :
  outcome (promise_all (delete_if_old <$> names) h) = Return l →
  n ∈ names →
  n ∈ cache_names (storage (host (promise_all (delete_if_old <$> names) h))) →
  n = CACHE_NAME.
Proof.
  revert h l. induction names as [|m ms IH]; intros h l.
  - intros _ Hin. by apply elem_of_nil in Hin.
  - rewrite fmap_cons, promise_all_cons. cbn [host outcome].
    intros Hout Hin Hleft.
    destruct (outcome (delete_if_old m h)) as [a|e] eqn:Hm; [|discriminate].
    destruct (outcome (promise_all (delete_if_old <$> ms)
                         (host (delete_if_old m h)))) as [l'|e] eqn:Hms;
      [|discriminate].
    apply elem_of_cons in Hin as [->|Hin].
    + destruct (decide (m = CACHE_NAME)) as [|Hne]; [done|].
      apply sweep_subset in Hleft.
      destruct (delete_if_old_storage m h) as (_ & Hdel & _).
      rewrite (Hdel a Hm Hne) in Hleft.
      apply cache_names_storage_delete in Hleft as [_ ?]. done.
    + by apply (IH (host (delete_if_old m h)) l').
Qed.


(** What [activate] does to the storage: it runs the deletion callbacks
    over the names listed by [caches.keys()], and it fulfils only if that
    listing and every callback fulfil. *)
Lemma activate_storage h :
  storage (host (activate h)) = storage h ∧
  (∀ a, outcome (activate h) ≠ Return a)
  ∨
  ∃ h1, storage h1 = storage h ∧
        (reliable h → reliable h1) ∧
        storage (host (activate h)) =
        storage (host (promise_all (delete_if_old <$> cache_names (storage h)) h1)) ∧
        (outcome (activate h) = Return tt ↔
         ∃ l, outcome (promise_all (delete_if_old <$> cache_names (storage h)) h1)
              = Return l).
Proof.
  unfold activate, reliable. destruct h as [st fs]. gw_unfold.
  destruct fs as [|[] fs]; cbn [outcome host events storage faults app].
  - right. exists (mkHost st []).
    destruct (promise_all _ _) as [[l|e] h2 ev2];
      cbn [outcome host events storage faults app].
    + repeat split; eauto.
    + repeat split; try done. intros [l Hl]. discriminate.
  - left. split; [done | discriminate].
  - right. exists (mkHost st fs).
    destruct (promise_all _ _) as [[l|e] h2 ev2];
      cbn [outcome host events storage faults app].
    + repeat split; eauto. discriminate.
    + repeat split; try done. intros [l Hl]. discriminate.
Qed.

Lemma sweep_reliable names h :
  reliable h →
  reliable (host (promise_all (delete_if_old <$> names) h)) ∧
  ∃ l, outcome (promise_all (delete_if_old <$> names) h) = Return l.
Proof.
  revert h. induction names as [|m ms IH]; intros h Hr.
  - split; [done|]. by exists [].
  - rewrite fmap_cons, promise_all_cons. cbn [host outcome].
    destruct (delete_if_old_storage m h) as (_ & _ & Hm).
    destruct (Hm Hr) as [Hr1 Ho1].
    destruct (IH _ Hr1) as [Hr2 [l Ho2]].
    split; [done|]. rewrite Ho1, Ho2. eauto.
Qed.

(** The names retained by a fulfilled activation: the current version
    tag, if its store existed, and nothing else. *)
Lemma activate_retained_names h :
  outcome (activate h) = Return tt →
  ∀ n, n ∈ cache_names (storage (host (activate h))) ↔
       n = CACHE_NAME ∧ CACHE_NAME ∈ cache_names (storage h).
Proof.
  intros Hout n.
  destruct (activate_storage h) as [[_ Hno]|(h1 & Hst & _ & Hh & Ho)];
    [by destruct (Hno tt)|].
  destruct (proj1 Ho Hout) as [l Hl]. rewrite Hh. split.
  - intros Hn. pose proof (sweep_subset _ _ _ Hn) as Hsub.
    rewrite Hst in Hsub.
    assert (n = CACHE_NAME) as -> by (by apply (sweep_deletes _ _ _ _ Hl)).
    done.
  - intros [-> Hcur].
    apply sweep_keeps_current; [exact "" | by rewrite Hst].
Qed.

Lemma activate_keeps_current_entries h u :
  storage_lookup CACHE_NAME u (storage (host (activate h))) =
  storage_lookup CACHE_NAME u (storage h).
Proof.
  destruct (activate_storage h) as [[-> _]|(h1 & Hst & _ & -> & _)]; [done|].
  rewrite (proj1 (sweep_keeps_current _ h1 u)). by rewrite Hst.
Qed.

(** C7: when the activate phase completes (its promise fulfils), every
    cache retained in the Cache Storage is named with the current version
    tag: every cache with any other name has been deleted.  If the store
    of the current version existed when activation began (install creates
    it), the retained names are exactly the current version tag, and that
    store's entries are the ones it had. *)
Theorem activate_version_isolation h :
  outcome (activate h) = Return tt →
  (∀ n, n ∈ cache_names (storage (host (activate h))) → n = CACHE_NAME) ∧
  (CACHE_NAME ∈ cache_names (storage h) →
   ∀ n, n ∈ cache_names (storage (host (activate h))) ↔ n = CACHE_NAME) ∧
  (∀ u, storage_lookup CACHE_NAME u (storage (host (activate h))) =
        storage_lookup CACHE_NAME u (storage h)).
Proof.
  intros Hout. pose proof (activate_retained_names h Hout) as Hnames.
  split; [|split].
  - intros n Hn. by apply Hnames in Hn as [-> _].
  - intros Hcur n. rewrite Hnames. tauto.
  - apply activate_keeps_current_entries.
Qed.

Lemma activate_version_isolation_witness :
  "eternadata-v0.9.0" ∈ cache_names
    (storage (host (activate
       (mkHost [("eternadata-v0.9.0", ∅); ("eternadata-v1.0.0", ∅)] [])))) ↔
  "eternadata-v0.9.0" = CACHE_NAME.
Proof.
  apply (activate_version_isolation
           (mkHost [("eternadata-v0.9.0", ∅); ("eternadata-v1.0.0", ∅)] [])).
  - reflexivity.
  - unfold cache_names. simpl. apply elem_of_cons. right.
    apply elem_of_cons. left. reflexivity.
Defined.

(** ** Installation *)

Lemma cache_addAll_reliable origin net name requests h :
  reliable h →
  cache_addAll origin net name requests h =
  let urls := resolve origin <$> requests in
  let evs := ECacheAddAll name urls :: (EFetch <$> urls) in
  match fetch_all net urls with
  | Some rs =>
      if forallb addAll_accepts rs
      then mkRun (Return tt)
             (mkHost (storage_put_all name (zip urls rs) (storage h)) []) evs
      else mkRun (Throw "TypeError: bad response status") h evs
  | None => mkRun (Throw "TypeError: Failed to fetch") h evs
  end.
Proof.
  unfold reliable, cache_addAll. destruct h as [st fs]. simpl. intros ->.
  gw_unfold.
  destruct (fetch_all net (resolve origin <$> requests)) as [rs|]; [|done].
  destruct (forallb addAll_accepts rs); done.
Qed.

(** Whatever the storage faults, [cache.addAll] stores either nothing or
    the whole batch of accepted responses. *)
Lemma cache_addAll_storage origin net name requests h :
  storage (host (cache_addAll origin net name requests h)) = storage h ∨
  ∃ rs, fetch_all net (resolve origin <$> requests) = Some rs ∧
        forallb addAll_accepts rs = true ∧
        storage (host (cache_addAll origin net name requests h)) =
        storage_put_all name (zip (resolve origin <$> requests) rs) (storage h).
Proof.
  unfold cache_addAll. destruct h as [st fs]. gw_unfold.
  destruct fs as [|[] fs]; cbn [outcome host events storage faults app];
    try (by left);
    (destruct (fetch_all net (resolve origin <$> requests)) as [rs|];
       [|by left];
     destruct (forallb addAll_accepts rs) eqn:Hacc; [|by left];
     right; exists rs; done).
Qed.

Lemma fetch_all_length net urls rs :
  fetch_all net urls = Some rs → length rs = length urls.
Proof.
  revert rs. induction urls as [|u urls IH]; intros rs; simpl.
  - by intros [= <-].
  - destruct (net u) as [r|]; [|done].
    destruct (fetch_all net urls) as [rs'|]; [|done].
    intros [= <-]. simpl. f_equal. by apply IH.
Qed.

Lemma fetch_all_lookup net urls rs u :
  fetch_all net urls = Some rs →
  ∀ r, (u, r) ∈ zip urls rs → net u = Some r.
Proof.
  revert rs. induction urls as [|v urls IH]; intros rs; simpl.
  - intros [= <-] r Hin. by apply elem_of_nil in Hin.
  - destruct (net v) as [rv|] eqn:Hv; [|done].
    destruct (fetch_all net urls) as [rs'|]; [|done].
    intros [= <-] r Hin. simpl in Hin.
    apply elem_of_cons in Hin as [[= -> ->]|Hin]; [done|]. by apply (IH rs').
Qed.

(** One failing fetch makes the whole batch unacceptable. *)
Lemma fetch_all_fails net urls u :
  u ∈ urls → fetch_fails net u →
  match fetch_all net urls with
  | Some rs => forallb addAll_accepts rs = false
  | None => True
  end.
Proof.
  unfold fetch_fails. induction urls as [|v urls IH]; intros Hin Hf.
  - by apply elem_of_nil in Hin.
  - simpl. destruct (net v) as [rv|] eqn:Hv; [|done].
    apply elem_of_cons in Hin as [->|Hin].
    + rewrite Hv in Hf.
      destruct (fetch_all net urls); [|done]. simpl.
      unfold addAll_accepts at 1. by rewrite Hf.
    + specialize (IH Hin Hf).
      destruct (fetch_all net urls); [|done]. simpl.
      rewrite IH. apply andb_false_r.
Qed.

(** On a storage that does not fail, [install] always fulfils; it opens
    the store of the current version and adds the whole manifest or
    nothing. *)
Lemma install_reliable origin net h :
  reliable h →
  outcome (install origin net h) = Return tt ∧
  reliable (host (install origin net h)) ∧
  ESkipWaiting ∈ events (install origin net h) ∧
  match fetch_all net (resolve origin <$> STATIC_CACHE) with
  | Some rs =>
      if forallb addAll_accepts rs then
        storage (host (install origin net h)) =
        storage_put_all CACHE_NAME (zip (resolve origin <$> STATIC_CACHE) rs)
          (storage_open CACHE_NAME (storage h))
      else
        storage (host (install origin net h)) =
          storage_open CACHE_NAME (storage h) ∧
        EConsoleError ["Failed to cache resources:";
                       "TypeError: bad response status"]
          ∈ events (install origin net h)
  | None =>
      storage (host (install origin net h)) =
        storage_open CACHE_NAME (storage h) ∧
      EConsoleError ["Failed to cache resources:"; "TypeError: Failed to fetch"]
        ∈ events (install origin net h)
  end.
Proof.
  intros Hr. unfold install. destruct h as [st fs].
  unfold reliable in *. simpl in Hr. subst fs. gw_unfold.
  rewrite cache_addAll_reliable by done.
  cbn [outcome host events storage faults app].
  destruct (fetch_all net (resolve origin <$> STATIC_CACHE)) as [rs|];
    [destruct (forallb addAll_accepts rs)|];
    cbn [outcome host events storage faults app];
    repeat split; try done;
    repeat (first [apply list_elem_of_here | apply list_elem_of_further]).
Qed.

(** C2 (as amended): during install on a storage that does not fail, if
    the fetch of any one manifest entry fails, the failure is logged and
    install still completes (with [skipWaiting] called), but no manifest
    entry is inserted: population is all-or-nothing, and every entry of
    the store of the current version is what it was before install. *)
Theorem install_all_or_nothing origin net h p :
  reliable h →
  p ∈ STATIC_CACHE →
  fetch_fails net (resolve origin p) →
  outcome (install origin net h) = Return tt ∧
  ESkipWaiting ∈ events (install origin net h) ∧
  (∃ error, EConsoleError ["Failed to cache resources:"; error]
            ∈ events (install origin net h)) ∧
  storage (host (install origin net h)) = storage_open CACHE_NAME (storage h) ∧
  (∀ u, storage_lookup CACHE_NAME u (storage (host (install origin net h))) =
        storage_lookup CACHE_NAME u (storage h)).
Proof.
  intros Hr Hp Hf.
  destruct (install_reliable origin net h Hr) as (Hout & _ & Hskip & Hst).
  assert (Hin : resolve origin p ∈ resolve origin <$> STATIC_CACHE).
  { apply list_elem_of_fmap. eauto. }
  pose proof (fetch_all_fails net _ _ Hin Hf) as Hbad.
  assert (Hst' : storage (host (install origin net h)) =
                   storage_open CACHE_NAME (storage h) ∧
                 ∃ error, EConsoleError ["Failed to cache resources:"; error]
                          ∈ events (install origin net h)).
  { destruct (fetch_all net (resolve origin <$> STATIC_CACHE)) as [rs|].
    - rewrite Hbad in Hst. destruct Hst; eauto.
    - destruct Hst; eauto. }
  destruct Hst' as [Hs Herr].
  repeat split; try done.
  intros u. rewrite Hs. apply storage_lookup_storage_open.
Qed.

Lemma install_all_or_nothing_witness :
  outcome (install site logo_missing_net empty_host) = Return tt ∧
  storage (host (install site logo_missing_net empty_host)) =
    storage_open CACHE_NAME (storage empty_host).
Proof.
  assert (H : reliable empty_host ∧ "/assets/logo.svg" ∈ STATIC_CACHE ∧
              fetch_fails logo_missing_net (resolve site "/assets/logo.svg")).
  2: { destruct H as (Hr & Hp & Hf).
       destruct (install_all_or_nothing site logo_missing_net empty_host
                   "/assets/logo.svg" Hr Hp Hf) as (Ho & _ & _ & Hs & _).
       exact (conj Ho Hs). }
  split; [|split].
  - reflexivity.
  - unfold STATIC_CACHE.
    repeat (first [apply list_elem_of_here | apply list_elem_of_further]).
  - vm_compute. exact I.
Defined.

(** C2 fails as stated: with the fetch of one manifest entry failing and
    the fetch of another succeeding, the latter is not in the store after
    install. *)
Lemma install_drops_fetched_entries :
  logo_missing_net (resolve site "/assets/logo.svg") = None ∧
  logo_missing_net (resolve site "/index.html") =
    Some (mkResponse 200 "OK" (site +:+ "/index.html")) ∧
  ok (mkResponse 200 "OK" (site +:+ "/index.html")) = true ∧
  outcome (install site logo_missing_net empty_host) = Return tt ∧
  storage_lookup CACHE_NAME (resolve site "/index.html")
    (storage (host (install site logo_missing_net empty_host))) = None.
Proof. vm_compute. repeat split. Qed.

(** When every manifest fetch settles to an accepted response, every
    manifest entry is in the store after install, with the response the
    network gave. *)
Lemma storage_lookup_storage_put_all net name urls rs st u :
  fetch_all net urls = Some rs →
  name ∈ cache_names st →
  u ∈ urls →
  storage_lookup name u (storage_put_all name (zip urls rs) st) = net u.
Proof.
  unfold storage_put_all. revert rs st.
  induction urls as [|v urls IH]; intros rs st Hf Hn Hu.
  - by apply elem_of_nil in Hu.
  - simpl in Hf. destruct (net v) as [rv|] eqn:Hv; [|done].
    destruct (fetch_all net urls) as [rs'|] eqn:Hrs; [|done].
    injection Hf as <-. simpl.
    destruct (decide (u ∈ urls)) as [Hin|Hnin].
    + apply IH; [done | by rewrite cache_names_storage_put | done].
    + apply elem_of_cons in Hu as [->|?]; [|done].
      rewrite Hv.
      assert (Hkeep : ∀ es st',
        (∀ e, e ∈ es → e.1 ≠ v) →
        storage_lookup name v
          (foldl (λ acc e, storage_put name e.1 e.2 acc) st' es) =
        storage_lookup name v st').
      { induction es as [|e es IHes]; intros st' Hes; [done|]. simpl.
        rewrite IHes.
        - apply storage_lookup_storage_put_ne. right.
          intros ->. by apply (Hes e); [apply list_elem_of_here|].
        - intros e' He'. apply Hes. by apply list_elem_of_further. }
      rewrite Hkeep.
      * by apply storage_lookup_storage_put_eq.
      * intros [w r] Hin Heq. simpl in Heq. subst w.
        apply Hnin. by apply elem_of_zip_l in Hin.
Qed.

Lemma install_populates origin net h p :
  reliable h →
  (∀ q, q ∈ STATIC_CACHE →
        ∃ r, net (resolve origin q) = Some r ∧ addAll_accepts r = true) →
  p ∈ STATIC_CACHE →
  storage_lookup CACHE_NAME (resolve origin p)
    (storage (host (install origin net h))) = net (resolve origin p).
Proof.
  intros Hr Hall Hp.
  destruct (install_reliable origin net h Hr) as (_ & _ & _ & Hst).
  assert (Hok : ∃ rs, fetch_all net (resolve origin <$> STATIC_CACHE) = Some rs ∧
                      forallb addAll_accepts rs = true).
  { clear Hst Hp. induction STATIC_CACHE as [|q qs IH].
    - by exists [].
    - destruct (Hall q) as (r & Hq & Hacc); [apply list_elem_of_here|].
      destruct IH as (rs & Hrs & Haccs).
      { intros q' Hq'. apply Hall. by apply list_elem_of_further. }
      exists (r :: rs). rewrite fmap_cons. cbn [fetch_all].
      rewrite Hq, Hrs. simpl. by rewrite Hacc, Haccs. }
  destruct Hok as (rs & Hrs & Hacc). rewrite Hrs, Hacc in Hst. rewrite Hst.
  apply storage_lookup_storage_put_all; [done | |].
  - apply cache_names_storage_open. by left.
  - apply list_elem_of_fmap. eauto.
Qed.

(** Install followed by activate, on a storage that does not fail,
    completes and leaves exactly the store of the current version. *)
Lemma install_then_activate_retains_current origin net h :
  reliable h →
  outcome (install_then_activate origin net h) = Return tt ∧
  ∀ n, n ∈ cache_names (storage (host (install_then_activate origin net h))) ↔
       n = CACHE_NAME.
Proof.
  intros Hr.
  destruct (install_reliable origin net h Hr) as (Hout & Hr1 & _ & Hst).
  assert (Hcur : CACHE_NAME ∈
                 cache_names (storage (host (install origin net h)))).
  { destruct (fetch_all net (resolve origin <$> STATIC_CACHE)) as [rs|];
      [destruct (forallb addAll_accepts rs)|].
    - rewrite Hst, cache_names_storage_put_all.
      apply cache_names_storage_open. by left.
    - destruct Hst as [-> _]. apply cache_names_storage_open. by left.
    - destruct Hst as [-> _]. apply cache_names_storage_open. by left. }
  assert (Hact : outcome (activate (host (install origin net h))) = Return tt).
  { destruct (activate_storage (host (install origin net h)))
      as [[_ Hno]|(h1 & Hs1 & Hrel & _ & Ho)].
    - exfalso. revert Hno. unfold activate. unfold reliable in Hr1.
      destruct (host (install origin net h)) as [st1 fs1]. simpl in Hr1.
      subst fs1. gw_unfold.
      destruct (promise_all _ _) as [[l|e] h2 ev2] eqn:Hp;
        cbn [outcome host events storage faults app]; intros Hno.
      + by apply (Hno tt).
      + destruct (sweep_reliable (cache_names st1) (mkHost st1 []))
          as [_ [l Hl]]; [done|].
        rewrite Hp in Hl. discriminate.
    - apply Ho. by apply sweep_reliable, Hrel. }
  unfold install_then_activate, bind.
  destruct (install origin net h) as [o1 h1 ev1]. simpl in *. subst o1.
  pose proof (activate_retained_names h1 Hact) as Hiff.
  destruct (activate h1) as [o2 h2 ev2]. simpl in *. split; [done|].
  intros n. rewrite Hiff. tauto.
Qed.

(** ** Store entries are complete, successful responses *)

(** The handler itself writes nothing but the (empty) store of the
    current version, when it has to open it. *)
Lemma handleRequest_storage origin net request h :
  storage (host (handleRequest origin net request h)) = storage h ∨
  storage (host (handleRequest origin net request h)) =
    storage_open CACHE_NAME (storage h).
Proof.
  unfold handleRequest. destruct h as [st fs].
  destruct (decide (destination request = "document")); gw_unfold.
  all: repeat gw_case.
  all: first [by left | by right].
Qed.

(** The only entry written when the puts of a run land: the whole ok
    network response, under the key of the request, in the store of the
    current version. *)
Lemma handleRequest_landed origin net request h :
  storage (landed (handleRequest origin net request h)) =
    storage (host (handleRequest origin net request h)) ∨
  ∃ r, net (url request) = Some r ∧ ok r = true ∧
       storage (landed (handleRequest origin net request h)) =
       storage_put CACHE_NAME (strip_fragment (url request)) r
         (storage (host (handleRequest origin net request h))).
Proof.
  unfold handleRequest, landed. destruct h as [st fs].
  destruct (decide (destination request = "document")); gw_unfold.
  all: repeat gw_case.
  all: cbn [foldl land_put storage].
  all: try (by left).
  all: destruct (decide (status _ = 206)); [by left|].
  all: right; eexists; split; [reflexivity|]; split;
    [eassumption | reflexivity].
Qed.

Lemma onFetch_handleRequest origin net request h :
  storage (host (onFetch origin net request h)) = storage h ∧
  storage (landed (onFetch origin net request h)) = storage h
  ∨
  storage (host (onFetch origin net request h)) =
    storage (host (handleRequest origin net request h)) ∧
  storage (landed (onFetch origin net request h)) =
    storage (landed (handleRequest origin net request h)).
Proof.
  unfold onFetch.
  destruct (decide (method request ≠ "GET")); [by left|].
  destruct (negb (String.prefix origin (url request))); [by left|].
  right. unfold bind, ret, landed.
  destruct (handleRequest origin net request h) as [[v|e] h1 ev1];
    cbn [outcome host events storage faults]; [|done].
  by rewrite app_nil_r.
Qed.

Lemma install_storage origin net h :
  storage (host (install origin net h)) = storage h ∨
  storage (host (install origin net h)) = storage_open CACHE_NAME (storage h) ∨
  ∃ rs, forallb addAll_accepts rs = true ∧
        storage (host (install origin net h)) =
        storage_put_all CACHE_NAME (zip (resolve origin <$> STATIC_CACHE) rs)
          (storage_open CACHE_NAME (storage h)).
Proof.
  unfold install. destruct h as [st fs]. gw_unfold.
  destruct fs as [|[] fs]; cbn [outcome host events storage faults app];
    try (by left);
    match goal with
    | |- context [cache_addAll origin net CACHE_NAME STATIC_CACHE ?h1] =>
        pose proof (cache_addAll_storage origin net CACHE_NAME STATIC_CACHE h1)
          as Hadd;
        destruct (cache_addAll origin net CACHE_NAME STATIC_CACHE h1)
          as [[[]|e] h2 ev2]
    end;
    cbn [outcome host events storage faults app] in *;
    (destruct Hadd as [->|(rs & _ & Hacc & ->)]; [by right; left | eauto]).
Qed.

Lemma forallb_addAll_accepts_ok urls rs :
  forallb addAll_accepts rs = true →
  Forall (λ e : string * Response, ok e.2 = true) (zip urls rs).
Proof.
  revert urls. induction rs as [|r rs IH]; intros urls Hacc.
  - destruct urls; constructor.
  - destruct urls as [|u urls]; [constructor|]. simpl in *.
    apply andb_prop in Hacc as [Hr Hrs].
    unfold addAll_accepts in Hr. apply andb_prop in Hr as [Hr _].
    constructor; [done | by apply IH].
Qed.

(** Every operation preserves the soundness of the store, whether or
    not the puts of a fetch have landed. *)
Lemma run_op_store_sound origin net op h :
  store_sound (storage h) → store_sound (storage (run_op origin net op h)).
Proof.
  intros Hs. destruct op as [| |request lands|event]; simpl.
  - destruct (install_storage origin net h) as [->|[->|(rs & Hacc & ->)]].
    + done.
    + by apply store_sound_storage_open.
    + apply store_sound_storage_put_all;
        [by apply forallb_addAll_accepts_ok | by apply store_sound_storage_open].
  - destruct (activate_storage h) as [[-> _]|(h1 & Hst & _ & -> & _)]; [done|].
    apply sweep_sound. by rewrite Hst.
  - assert (Hhost : store_sound
              (storage (host (handleRequest origin net request h)))).
    { destruct (handleRequest_storage origin net request h) as [->| ->];
        [done | by apply store_sound_storage_open]. }
    destruct (onFetch_handleRequest origin net request h)
      as [[Hh Hl]|[Hh Hl]]; destruct lands; rewrite ?Hh, ?Hl; try done.
    destruct (handleRequest_landed origin net request h)
      as [->|(r & _ & Hok & ->)]; [done|].
    by apply store_sound_storage_put.
  - unfold onMessage. destruct (data_type event) as [type|]; [|done].
    destruct (ports event);
      repeat (destruct (decide _); [exact Hs|]); exact Hs.
Qed.

(** Every state reachable from a sound storage has a sound store. *)
Lemma run_ops_store_sound origin steps h :
  store_sound (storage h) → store_sound (storage (run_ops origin steps h)).
Proof.
  revert h. induction steps as [|[net op] steps IH]; intros h Hs; [done|].
  simpl. apply IH. by apply run_op_store_sound.
Qed.

(** C8: every operation (install, activate, fetch handling with its put
    landed or not, message) preserves the invariant that each entry of
    each store is a successful (ok) response; and once the put of a
    fetch-handling run has landed, every entry is either as it was or
    equal to the whole ok response the network gave for the request,
    stored under the request's key in the current store: no response that
    is not ok is stored, and no entry is partial. *)
Theorem store_entries_successful origin net h :
  store_sound (storage h) →
  (∀ op, store_sound (storage (run_op origin net op h))) ∧
  (∀ request name u,
     storage_lookup name u (storage (landed (onFetch origin net request h))) =
       storage_lookup name u (storage h) ∨
     ∃ r, net (url request) = Some r ∧ ok r = true ∧
          name = CACHE_NAME ∧ u = strip_fragment (url request) ∧
          storage_lookup name u
            (storage (landed (onFetch origin net request h))) = Some r).
Proof.
  intros Hs. split.
  - intros op. by apply run_op_store_sound.
  - intros request name u.
    destruct (onFetch_handleRequest origin net request h)
      as [[_ ->]|[_ ->]]; [by left|].
    assert (Hhost : storage_lookup name u
                      (storage (host (handleRequest origin net request h))) =
                    storage_lookup name u (storage h)).
    { destruct (handleRequest_storage origin net request h) as [->| ->];
        [done | apply storage_lookup_storage_open]. }
    destruct (handleRequest_landed origin net request h)
      as [->|(r & Hnet & Hok & ->)]; [by left|].
    destruct (storage_lookup_storage_put_cases name CACHE_NAME u
                (strip_fragment (url request)) r
                (storage (host (handleRequest origin net request h))))
      as [->|(-> & -> & Hput)].
    + by left.
    + right. exists r. done.
Qed.

Lemma store_entries_successful_witness :
  store_sound
    (storage (run_op site online_net
                (OpFetch (mkRequest "GET" (site +:+ "/pricing") "document") true)
                installed_host)) ∧
  storage_lookup CACHE_NAME (site +:+ "/pricing")
    (storage (run_op site online_net
                (OpFetch (mkRequest "GET" (site +:+ "/pricing") "document") true)
                installed_host)) =
    Some (mkResponse 200 "OK" (site +:+ "/pricing")) ∧
  store_sound
    (storage (run_op site server_error_net
                (OpFetch (mkRequest "GET" (site +:+ "/api/data.json") "") true)
                installed_host)) ∧
  storage_lookup CACHE_NAME (site +:+ "/api/data.json")
    (storage (run_op site server_error_net
                (OpFetch (mkRequest "GET" (site +:+ "/api/data.json") "") true)
                installed_host)) = None.
Proof.
  assert (Hs : store_sound (storage installed_host)).
  { unfold store_sound, cache_sound.
    apply (bool_decide_unpack _). vm_compute. exact I. }
  split; [|split; [|split]].
  - apply (proj1 (store_entries_successful site online_net installed_host Hs)).
  - reflexivity.
  - apply (proj1 (store_entries_successful site server_error_net
                    installed_host Hs)).
  - reflexivity.
Defined.

(** ** Finding what a store holds *)

Lemma storage_lookup_match name u st r :
  storage_lookup name u st = Some r → is_Some (storage_match st u).
Proof.
  induction st as [|[m c] st IH]; simpl; [done|].
  destruct (decide (m = name)) as [_|_].
  - intros ->. eauto.
  - intros Hl. destruct (c !! u); eauto.
Qed.

(** * Further properties of the worker *)

(** ** Network use of the fetch path *)

(** X1: handling a request fetches the request's own URL and nothing
    else, exactly once for a document (whatever the storage does), and at
    most once for any other destination. *)
Theorem handleRequest_fetches_once origin net request h :
  fetched (events (handleRequest origin net request h)) = [url request] ∨
  destination request ≠ "document" ∧
  fetched (events (handleRequest origin net request h)) = [].
Proof.
  unfold handleRequest. destruct h as [st fs].
  destruct (decide (destination request = "document")) as [Hd|Hd]; gw_unfold.
  - left. repeat gw_case; reflexivity.
  - repeat gw_case; first [by left | by right].
Qed.

(** X2: a non-document request that misses the cache (under its URL
    without the fragment) and whose fetch settles to a response that is
    not ok (a server error, a 404) gets that very response back; no put
    is issued, so nothing is stored and the next lookup still misses. *)
Theorem handleRequest_asset_error_passthrough origin net request h r :
  destination request ≠ "document" →
  first_call_succeeds h →
  matched (storage h) (url request) = None →
  net (url request) = Some r →
  ok r = false →
  outcome (handleRequest origin net request h) = Return (Some r) ∧
  storage (landed (handleRequest origin net request h)) = storage h ∧
  matched (storage (landed (handleRequest origin net request h)))
    (url request) = None.
Proof.
  intros Hd Hf Hc Hn Hok. unfold handleRequest, landed. destruct h as [st fs].
  unfold first_call_succeeds in Hf. cbn [storage faults] in Hc, Hf.
  destruct (decide (destination request = "document")); [done|].
  gw_unfold. rewrite Hn.
  destruct fs as [|b fs]; simpl in Hf; [|subst b];
    cbn [outcome host events storage faults app]; rewrite Hc;
    cbn [outcome host events storage faults app]; rewrite Hok;
    cbn [outcome host events storage faults app foldl land_put]; done.
Qed.

Lemma handleRequest_asset_error_passthrough_witness :
  outcome (handleRequest site (fun u => Some (mkResponse 500 "Server Error" u))
             (mkRequest "GET" (site +:+ "/api/data.json") "")
             installed_host) =
  Return (Some (mkResponse 500 "Server Error" (site +:+ "/api/data.json"))).
Proof.
  apply (handleRequest_asset_error_passthrough site
           (fun u => Some (mkResponse 500 "Server Error" u))
           (mkRequest "GET" (site +:+ "/api/data.json") "")
           installed_host
           (mkResponse 500 "Server Error" (site +:+ "/api/data.json")));
    [discriminate | reflexivity ..].
Defined.

(** ** A storage failure while caching a fresh response *)

(** X3: the fresh response is lost when opening the store fails, because
    [caches.open] is awaited inside the [try] block.  For a document whose
    network response is ok, if that call (and only that call) fails, the
    value is the cached copy (found under the URL without its fragment),
    else the offline page, else [undefined]: the network response is not
    returned.  For a non-document request that missed the cache, the
    value is the synthesized 404 although the network had answered.  No
    put is issued, so nothing is stored in either case. *)
Theorem handleRequest_open_failure_discards_response origin net request h r :
  net (url request) = Some r →
  ok r = true →
  (destination request = "document" →
   faults h = [true] →
   outcome (handleRequest origin net request h) =
   Return
     match matched (storage h) (url request) with
     | Some cached => Some cached
     | None => matched (storage h) (resolve origin OFFLINE_PAGE)
     end ∧
   storage (landed (handleRequest origin net request h)) = storage h) ∧
  (destination request ≠ "document" →
   faults h = [false; true] →
   matched (storage h) (url request) = None →
   outcome (handleRequest origin net request h) =
   Return (Some asset_unavailable_response) ∧
   storage (landed (handleRequest origin net request h)) = storage h).
Proof.
  intros Hn Hok. unfold handleRequest, landed. destruct h as [st fs].
  cbn [storage faults].
  destruct (decide (destination request = "document")) as [Hd|Hd];
    (split; [intros Hd' | intros Hd']; try done).
  - intros ->. gw_unfold. rewrite Hn.
    cbn [outcome host events storage faults app]. rewrite Hok.
    cbn [outcome host events storage faults app].
    destruct (matched st (url request));
      cbn [outcome host events storage faults app foldl land_put]; done.
  - intros -> Hc. gw_unfold. rewrite Hc.
    cbn [outcome host events storage faults app]. rewrite Hn.
    cbn [outcome host events storage faults app]. rewrite Hok.
    cbn [outcome host events storage faults app foldl land_put]. done.
Qed.

Lemma handleRequest_open_failure_discards_response_witness :
  outcome (handleRequest site online_net
             (mkRequest "GET" (site +:+ "/pricing") "document")
             (mkHost [] [true])) = Return None ∧
  outcome (handleRequest site online_net
             (mkRequest "GET" (site +:+ "/assets/logo.svg") "image")
             (mkHost [] [false; true])) =
    Return (Some asset_unavailable_response).
Proof.
  split.
  - apply (proj1 (handleRequest_open_failure_discards_response site online_net
             (mkRequest "GET" (site +:+ "/pricing") "document")
             (mkHost [] [true])
             (mkResponse 200 "OK" (site +:+ "/pricing")) eq_refl eq_refl));
      reflexivity.
  - apply (proj2 (handleRequest_open_failure_discards_response site online_net
             (mkRequest "GET" (site +:+ "/assets/logo.svg") "image")
             (mkHost [] [false; true])
             (mkResponse 200 "OK" (site +:+ "/assets/logo.svg")) eq_refl eq_refl));
      [discriminate | reflexivity ..].
Defined.

(** ** Messages *)

(** X4: the message listener never reaches the Cache Storage or the
    network and never changes the host; it throws in exactly one case, a
    [GET_VERSION] message without a reply port; and [SKIP_WAITING] calls
    [skipWaiting] once and posts no reply. *)
Theorem onMessage_effects event h :
  host (onMessage event h) = h ∧
  Forall (fun e => uses_storage_or_network e = false)
         (events (onMessage event h)) ∧
  ((∃ e, outcome (onMessage event h) = Throw e) ↔
   data_type event = Some "GET_VERSION" ∧ ports event = []) ∧
  (data_type event = Some "SKIP_WAITING" →
   onMessage event h = mkRun (Return tt) h [ESkipWaiting]).
Proof.
  unfold onMessage. destruct event as [[type|] ps]; simpl.
  2: { split; [done|]. split; [constructor|]. split; [|done].
       split; [intros [e He]; discriminate | intros [[=] _]]. }
  destruct (decide (type = "")) as [->|H0]; simpl.
  { split; [done|]. split; [constructor|]. split; [|done].
    split; [intros [e He]; discriminate | intros [[=] _]]. }
  destruct (decide (type = "SKIP_WAITING")) as [->|H1]; simpl.
  { split; [done|]. split; [by repeat constructor|]. split; [|done].
    split; [intros [e He]; discriminate | intros [[=] _]]. }
  destruct (decide (type = "GET_VERSION")) as [->|H2]; simpl.
  { destruct ps as [|p ps]; simpl.
    - split; [done|]. split; [constructor|]. split; [|done].
      split; [done | eauto].
    - split; [done|]. split; [by repeat constructor|]. split; [|done].
      split; [intros [e He]; discriminate | intros [_ [=]]]. }
  split; [done|]. split; [by repeat constructor|]. split.
  - split; [intros [e He]; discriminate | intros [[= ->] _]; done].
  - intros [= ->]. done.
Qed.

Lemma onMessage_effects_witness :
  onMessage (mkMessageEvent (Some "SKIP_WAITING") []) installed_host =
  mkRun (Return tt) installed_host [ESkipWaiting].
Proof.
  apply (onMessage_effects (mkMessageEvent (Some "SKIP_WAITING") [])
           installed_host).
  reflexivity.
Defined.

(** ** Writing a response and reading it back *)

Lemma only_in_storage_open name u st :
  only_in name u st → only_in name u (storage_open name st).
Proof.
  unfold only_in. induction st as [|[m c] st IH]; simpl; intros Ho n c' Hin Hne.
  - apply list_elem_of_singleton in Hin as [= -> ->]. done.
  - destruct (decide (m = name)) as [->|Hm]; [by apply (Ho n c')|].
    apply elem_of_cons in Hin as [[= -> ->]|Hin].
    + apply (Ho m c); [apply list_elem_of_here | done].
    + refine (IH _ n c' Hin Hne). intros n' c'' Hin' Hne'.
      apply (Ho n' c''); [by apply list_elem_of_further | done].
Qed.

Lemma storage_match_None_only_in name u st :
  storage_match st u = None → only_in name u st.
Proof.
  unfold only_in. induction st as [|[m c] st IH]; simpl; intros Hm n c' Hin Hne.
  - by apply elem_of_nil in Hin.
  - destruct (c !! u) eqn:Hc; [done|].
    apply elem_of_cons in Hin as [[= -> ->]|Hin]; [done|]. by apply (IH Hm n c').
Qed.

(** A put into the cache called [name] is what [caches.match] finds,
    provided no other cache holds the URL. *)
Lemma storage_match_storage_put name u r st :
  only_in name u st →
  name ∈ cache_names st →
  storage_match (storage_put name u r st) u = Some r.
Proof.
  unfold only_in, cache_names.
  induction st as [|[m c] st IH]; simpl; intros Ho Hin.
  - by apply elem_of_nil in Hin.
  - destruct (decide (m = name)) as [->|Hm]; simpl.
    + by rewrite lookup_insert_eq.
    + rewrite (Ho m c); [|apply list_elem_of_here | done].
      apply IH.
      * intros n c' Hin' Hne. apply (Ho n c'); [|done].
        by apply list_elem_of_further.
      * apply elem_of_cons in Hin as [?|?]; [simpl in *; congruence | done].
Qed.

(** The run of a document request whose network response is ok, on a
    storage that does not fail: the store is opened and the put issued. *)
Lemma handleRequest_document_online origin net request h r :
  destination request = "document" →
  reliable h →
  net (url request) = Some r →
  ok r = true →
  handleRequest origin net request h =
  mkRun (Return (Some r))
    (mkHost (storage_open CACHE_NAME (storage h)) [])
    [EFetch (url request); ECachesOpen CACHE_NAME;
     ECachePut CACHE_NAME (url request) r].
Proof.
  intros Hd Hr Hn Hok. unfold handleRequest. destruct h as [st fs].
  unfold reliable in Hr. simpl in Hr. subst fs.
  destruct (decide (destination request = "document")); [|done].
  gw_unfold. rewrite Hn. cbn [outcome host events storage faults app].
  rewrite Hok. reflexivity.
Qed.

(** X5: network-first round trip, on a storage whose calls do not fail.
    A document request whose network response is ok gets the network
    response, whatever copy the cache held, and a put of that response is
    issued without being awaited: at that point the entry is not written
    yet.  Once the put has landed (the response not being a 206, which
    the Cache API does not store), the response is in the current store
    under the request's key; and if no other cache holds that key, the
    same request handled then with the network failing gets that same
    response back from the cache. *)
Theorem document_online_then_offline origin net net' request h r :
  destination request = "document" →
  reliable h →
  net (url request) = Some r →
  ok r = true →
  status r ≠ 206 →
  only_in CACHE_NAME (strip_fragment (url request)) (storage h) →
  fetch_fails net' (url request) →
  outcome (handleRequest origin net request h) = Return (Some r) ∧
  storage (host (handleRequest origin net request h)) =
    storage_open CACHE_NAME (storage h) ∧
  storage_lookup CACHE_NAME (strip_fragment (url request))
    (storage (landed (handleRequest origin net request h))) = Some r ∧
  outcome (handleRequest origin net' request
             (landed (handleRequest origin net request h))) = Return (Some r).
Proof.
  intros Hd Hr Hn Hok H206 Honly Hf.
  rewrite (handleRequest_document_online _ _ _ _ _ Hd Hr Hn Hok).
  unfold landed. cbn [outcome host events storage faults foldl land_put].
  destruct (decide (status r = 206)); [done|].
  assert (Hcur : CACHE_NAME ∈ cache_names (storage_open CACHE_NAME (storage h))).
  { apply cache_names_storage_open. by left. }
  split; [done|]. split; [done|].
  split; [by apply storage_lookup_storage_put_eq|].
  rewrite handleRequest_document_reliable by done. cbn [storage].
  unfold matched. rewrite storage_match_storage_put;
    [|by apply only_in_storage_open | done].
  unfold fetch_fails in Hf.
  destruct (net' (url request)) as [r'|]; [by rewrite Hf | done].
Qed.

Lemma document_online_then_offline_witness :
  outcome (handleRequest site offline_net
             (mkRequest "GET" (site +:+ "/pricing#plans") "document")
             (landed (handleRequest site online_net
                        (mkRequest "GET" (site +:+ "/pricing#plans") "document")
                        empty_host))) =
  Return (Some (mkResponse 200 "OK" (site +:+ "/pricing#plans"))).
Proof.
  apply (document_online_then_offline site online_net offline_net
           (mkRequest "GET" (site +:+ "/pricing#plans") "document") empty_host
           (mkResponse 200 "OK" (site +:+ "/pricing#plans")));
    try reflexivity; try discriminate.
  intros n c Hin. by apply elem_of_nil in Hin.
Defined.

(** X6: cache-first miss, then hit, on a storage whose calls do not
    fail.  A non-document request that misses the cache (under its URL
    without the fragment), with an ok network response, gets the network
    response after exactly one fetch, and a put of it is issued without
    being awaited.  Once that put has landed (the response not being a
    206), the same request handled then gets the same response from the
    cache without any fetch, whatever the network has become. *)
Theorem asset_miss_then_hit origin net net' request h r :
  destination request ≠ "document" →
  reliable h →
  matched (storage h) (url request) = None →
  net (url request) = Some r →
  ok r = true →
  status r ≠ 206 →
  outcome (handleRequest origin net request h) = Return (Some r) ∧
  fetched (events (handleRequest origin net request h)) = [url request] ∧
  outcome (handleRequest origin net' request
             (landed (handleRequest origin net request h))) = Return (Some r) ∧
  fetched (events (handleRequest origin net' request
                     (landed (handleRequest origin net request h)))) = [].
Proof.
  intros Hd Hr Hc Hn Hok H206.
  assert (Hrun : handleRequest origin net request h =
    mkRun (Return (Some r))
      (mkHost (storage_open CACHE_NAME (storage h)) [])
      [ECachesMatch (url request); EFetch (url request);
       ECachesOpen CACHE_NAME; ECachePut CACHE_NAME (url request) r]).
  { unfold handleRequest. destruct h as [st fs].
    unfold reliable in Hr. cbn [storage faults] in Hr, Hc. subst fs.
    destruct (decide (destination request = "document")); [done|].
    gw_unfold. rewrite Hc. cbn [outcome host events storage faults app].
    rewrite Hn. cbn [outcome host events storage faults app].
    rewrite Hok. reflexivity. }
  rewrite Hrun. unfold landed.
  cbn [outcome host events storage faults foldl land_put].
  destruct (decide (status r = 206)); [done|].
  split; [done|]. split; [reflexivity|].
  rewrite (handleRequest_asset_hit origin net' request _ r);
    [split; reflexivity | done | reflexivity |].
  cbn [storage]. unfold matched. apply storage_match_storage_put.
  - apply only_in_storage_open. by apply storage_match_None_only_in.
  - apply cache_names_storage_open. by left.
Qed.

Lemma asset_miss_then_hit_witness :
  outcome (handleRequest site offline_net
             (mkRequest "GET" (site +:+ "/assets/team.png#x") "image")
             (landed (handleRequest site online_net
                        (mkRequest "GET" (site +:+ "/assets/team.png#x") "image")
                        installed_host))) =
  Return (Some (mkResponse 200 "OK" (site +:+ "/assets/team.png#x"))).
Proof.
  apply (asset_miss_then_hit site online_net offline_net
           (mkRequest "GET" (site +:+ "/assets/team.png#x") "image")
           installed_host
           (mkResponse 200 "OK" (site +:+ "/assets/team.png#x")));
    try reflexivity; discriminate.
Defined.

(** ** Exact effect of activation *)

Lemma delete_if_old_reliable name h :
  reliable h →
  delete_if_old name h =
  mkRun (Return tt)
    (mkHost (if decide (name ≠ CACHE_NAME)
             then storage_delete name (storage h) else storage h) [])
    (if decide (name ≠ CACHE_NAME)
     then [EConsoleLog ["Deleting old cache:"; name]; ECachesDelete name]
     else []).
Proof.
  unfold reliable, delete_if_old. destruct h as [st fs]. simpl. intros ->.
  destruct (decide (name ≠ CACHE_NAME)); reflexivity.
Qed.

Lemma sweep_reliable_storage names h :
  reliable h →
  storage (host (promise_all (delete_if_old <$> names) h)) =
  filter (fun p => p.1 = CACHE_NAME ∨ p.1 ∉ names) (storage h).
Proof.
  revert h. induction names as [|m ms IH]; intros h Hr.
  - simpl. symmetry. induction (storage h) as [|p st IHst]; [done|].
    rewrite filter_cons_True; [by f_equal|]. right. apply not_elem_of_nil.
  - rewrite fmap_cons, promise_all_cons. cbn [host].
    rewrite delete_if_old_reliable by done. cbn [host].
    rewrite IH by done. cbn [storage].
    destruct (decide (m ≠ CACHE_NAME)) as [Hm|Hm].
    + unfold storage_delete. rewrite list_filter_filter.
      apply list_filter_iff. intros [n c]. simpl.
      rewrite not_elem_of_cons. split.
      * intros [[->|Hn] Hne]; [by left | by right].
      * intros [->|[Hne Hn]]; [split; [by left | congruence] | split; [by right | done]].
    + assert (m = CACHE_NAME) as -> by (destruct (decide (m = CACHE_NAME)); tauto).
      apply list_filter_iff. intros [n c]. simpl.
      rewrite not_elem_of_cons. split.
      * intros [->|Hn]; [by left|].
        destruct (decide (n = CACHE_NAME)); [by left | by right].
      * intros [->|[_ Hn]]; [by left | by right].
Qed.

Lemma filter_known_names (names : list string) (st : CacheStorage) :
  (∀ p, p ∈ st → p.1 ∈ names) →
  filter (fun p => p.1 = CACHE_NAME ∨ p.1 ∉ names) st =
  filter (fun p => p.1 = CACHE_NAME) st.
Proof.
  induction st as [|p st IH]; intros Hall; [done|].
  rewrite !filter_cons.
  assert (Hp : p.1 ∈ names) by (apply Hall, list_elem_of_here).
  rewrite IH by (intros q Hq; by apply Hall, list_elem_of_further).
  destruct (decide (p.1 = CACHE_NAME)) as [Hn|Hn].
  - by rewrite decide_True by (by left).
  - by rewrite decide_False by (intros [?|?]; done).
Qed.

(** On a storage that does not fail, [activate] fulfils and keeps
    exactly the caches named with the current version tag, untouched. *)
Lemma activate_reliable h :
  reliable h →
  outcome (activate h) = Return tt ∧
  reliable (host (activate h)) ∧
  storage (host (activate h)) =
  filter (fun p => p.1 = CACHE_NAME) (storage h).
Proof.
  intros Hr. unfold activate. destruct h as [st fs].
  unfold reliable in Hr. simpl in Hr. subst fs. gw_unfold.
  pose proof (sweep_reliable (cache_names st) (mkHost st []) eq_refl)
    as [Hrel [l Hl]].
  pose proof (sweep_reliable_storage (cache_names st) (mkHost st []) eq_refl)
    as Hst.
  destruct (promise_all _ _) as [o h2 ev2]. simpl in *. subst o. simpl.
  split; [done|]. split; [done|]. rewrite Hst.
  apply filter_known_names. intros p Hp.
  unfold cache_names. apply list_elem_of_fmap. eauto.
Qed.

(** X7: on a storage that does not fail, [activate] keeps exactly the
    caches named with the current version tag, in order and with their
    entries untouched, and deletes every other cache; running it again
    changes nothing. *)
Theorem activate_exact_and_idempotent h :
  reliable h →
  storage (host (activate h)) =
    filter (fun p => p.1 = CACHE_NAME) (storage h) ∧
  storage (host (activate (host (activate h)))) = storage (host (activate h)).
Proof.
  intros Hr.
  destruct (activate_reliable h Hr) as (_ & Hr1 & Hst).
  destruct (activate_reliable _ Hr1) as (_ & _ & Hst2).
  split; [done|]. rewrite Hst2, Hst.
  apply list_filter_filter_l. done.
Qed.

Lemma activate_exact_and_idempotent_witness :
  storage (host (activate
     (mkHost [("eternadata-v0.9.0", {[ "k" := mkResponse 200 "OK" "old" ]});
              ("eternadata-v1.0.0", {[ "k" := mkResponse 200 "OK" "new" ]})] []))) =
  [("eternadata-v1.0.0", {[ "k" := mkResponse 200 "OK" "new" ]})].
Proof.
  apply (activate_exact_and_idempotent
     (mkHost [("eternadata-v0.9.0", {[ "k" := mkResponse 200 "OK" "old" ]});
              ("eternadata-v1.0.0", {[ "k" := mkResponse 200 "OK" "new" ]})] [])).
  reflexivity.
Defined.

(** ** Claiming the clients *)

Lemma delete_if_old_no_claim name h :
  EClientsClaim ∉ events (delete_if_old name h).
Proof.
  unfold delete_if_old. destruct h as [st fs].
  destruct (decide (name ≠ CACHE_NAME)); [|apply not_elem_of_nil].
  gw_unfold. destruct fs as [|[] fs]; simpl;
    repeat (apply not_elem_of_cons; split; [discriminate|]);
    apply not_elem_of_nil.
Qed.

Lemma sweep_no_claim names h :
  EClientsClaim ∉ events (promise_all (delete_if_old <$> names) h).
Proof.
  revert h. induction names as [|m ms IH]; intros h; [apply not_elem_of_nil|].
  rewrite fmap_cons, promise_all_cons. cbn [events].
  rewrite elem_of_app. intros [Hin|Hin].
  - by apply delete_if_old_no_claim in Hin.
  - by apply IH in Hin.
Qed.

(** X8: [activate] claims the open clients exactly when its promise
    fulfils, that is, when listing the caches and every deletion
    succeeded; a single failed deletion leaves the clients unclaimed.
    When it does claim them, that is the last thing it does. *)
Theorem activate_claims_iff_fulfilled h :
  (EClientsClaim ∈ events (activate h) ↔ outcome (activate h) = Return tt) ∧
  (outcome (activate h) = Return tt →
   ∃ before, events (activate h) = (before ++ [EClientsClaim])%list ∧
             EClientsClaim ∉ before).
Proof.
  unfold activate. destruct h as [st fs]. gw_unfold.
  destruct fs as [|[] fs]; cbn [outcome host events storage faults app].
  2: { split; [split; [|done]|done].
       intros Hin. exfalso.
       repeat (apply elem_of_cons in Hin as [?|Hin]; [discriminate|]).
       by apply elem_of_nil in Hin. }
  all: match goal with
       | |- context [promise_all ?ms ?h1] =>
           pose proof (sweep_no_claim (cache_names st) h1) as Hno;
           destruct (promise_all ms h1) as [[l|e] h2 ev2]
       end;
       cbn [outcome host events storage faults app] in *.
  all: try (split; [split; [done|]|];
            [ intros _; do 2 apply list_elem_of_further;
              apply elem_of_app; right; apply list_elem_of_here
            | intros _;
              exists ([EConsoleLog ["ServiceWorker activating..."]; ECachesKeys]
                      ++ ev2)%list;
              split; [by rewrite <- app_assoc|];
              rewrite elem_of_app; intros [Hin|Hin]; [|done];
              repeat (apply elem_of_cons in Hin as [?|Hin]; [discriminate|]);
              by apply elem_of_nil in Hin ]).
  all: split; [split; [|done]|done];
       intros Hin; exfalso;
       repeat (apply elem_of_cons in Hin as [?|Hin]; [discriminate|]);
       done.
Qed.

Lemma activate_claims_iff_fulfilled_witness :
  ∃ before,
    events (activate (mkHost [("eternadata-v0.9.0", ∅)] [])) =
      (before ++ [EClientsClaim])%list ∧
    EClientsClaim ∉ before.
Proof.
  apply (proj2 (activate_claims_iff_fulfilled
                  (mkHost [("eternadata-v0.9.0", ∅)] []))).
  reflexivity.
Defined.

(** ** What install leaves alone, and what it guarantees *)

Lemma storage_lookup_storage_put_all_other name name' u entries st :
  name' ≠ name ∨ u ∉ entries.*1 →
  storage_lookup name' u (storage_put_all name entries st) =
  storage_lookup name' u st.
Proof.
  unfold storage_put_all. revert st.
  induction entries as [|[v r] entries IH]; intros st Hne; [done|].
  simpl. rewrite IH.
  - apply storage_lookup_storage_put_ne.
    destruct Hne as [Hn|Hu]; [by left | right].
    intros ->. apply Hu. rewrite fmap_cons. apply list_elem_of_here.
  - destruct Hne as [Hn|Hu]; [by left | right].
    intros Hin. apply Hu. rewrite fmap_cons. by apply list_elem_of_further.
Qed.

Lemma zip_fst_subseteq (urls : list string) (rs : list Response) u :
  u ∈ (zip urls rs).*1 → u ∈ urls.
Proof.
  intros Hin. apply list_elem_of_fmap in Hin as [[v r] [-> Hin]].
  by apply elem_of_zip_l in Hin.
Qed.

(** X9: whatever the network and the storage do, install never removes
    a cache, never touches an entry of a cache other than the store of
    the current version, and never touches an entry whose URL is not a
    manifest URL. *)
Theorem install_preserves_other_entries origin net h name u :
  (∀ n, n ∈ cache_names (storage h) →
        n ∈ cache_names (storage (host (install origin net h)))) ∧
  (name ≠ CACHE_NAME ∨ u ∉ resolve origin <$> STATIC_CACHE →
   storage_lookup name u (storage (host (install origin net h))) =
   storage_lookup name u (storage h)).
Proof.
  destruct (install_storage origin net h) as [->|[->|(rs & _ & ->)]].
  - done.
  - split.
    + intros n Hn. apply cache_names_storage_open. by right.
    + intros _. apply storage_lookup_storage_open.
  - split.
    + intros n Hn. rewrite cache_names_storage_put_all.
      apply cache_names_storage_open. by right.
    + intros Hne. rewrite storage_lookup_storage_put_all_other.
      * apply storage_lookup_storage_open.
      * destruct Hne as [?|Hu]; [by left | right].
        intros Hin. by apply Hu, (zip_fst_subseteq _ rs).
Qed.

Lemma install_preserves_other_entries_witness :
  storage_lookup "eternadata-v0.9.0" (site +:+ "/")
    (storage (host (install site online_net
       (mkHost [("eternadata-v0.9.0",
                 {[ site +:+ "/" := mkResponse 200 "OK" "old" ]})] [])))) =
  Some (mkResponse 200 "OK" "old").
Proof.
  rewrite (proj2 (install_preserves_other_entries site online_net
     (mkHost [("eternadata-v0.9.0",
               {[ site +:+ "/" := mkResponse 200 "OK" "old" ]})] [])
     "eternadata-v0.9.0" (site +:+ "/"))).
  - reflexivity.
  - left. discriminate.
Defined.

Lemma fetch_all_available net urls :
  (∀ u, u ∈ urls → ∃ r, net u = Some r ∧ addAll_accepts r = true) →
  ∃ rs, fetch_all net urls = Some rs ∧ forallb addAll_accepts rs = true.
Proof.
  induction urls as [|u urls IH]; intros Hall.
  - by exists [].
  - destruct (Hall u) as (r & Hu & Hacc); [apply list_elem_of_here|].
    destruct IH as (rs & Hrs & Haccs).
    { intros v Hv. apply Hall. by apply list_elem_of_further. }
    exists (r :: rs). cbn [fetch_all]. rewrite Hu, Hrs. simpl.
    by rewrite Hacc, Haccs.
Qed.

(** X10: when every manifest fetch settles to an accepted response and
    the storage does not fail, install completes without logging any
    error, and afterwards every manifest entry, the offline page among
    them, is in the store of the current version with exactly the
    response the network gave. *)
Theorem install_success_populates origin net h :
  reliable h →
  manifest_available origin net →
  outcome (install origin net h) = Return tt ∧
  (∀ args, EConsoleError args ∉ events (install origin net h)) ∧
  (∀ p, p ∈ STATIC_CACHE →
        storage_lookup CACHE_NAME (resolve origin p)
          (storage (host (install origin net h))) = net (resolve origin p)) ∧
  is_Some (storage_lookup CACHE_NAME (resolve origin OFFLINE_PAGE)
             (storage (host (install origin net h)))).
Proof.
  intros Hr Hall.
  destruct (install_reliable origin net h Hr) as (Hout & _ & _ & _).
  assert (Hpop : ∀ p, p ∈ STATIC_CACHE →
            storage_lookup CACHE_NAME (resolve origin p)
              (storage (host (install origin net h))) = net (resolve origin p)).
  { intros p Hp. by apply install_populates. }
  split; [done|]. split; [|split; [done|]].
  - assert (Hok : ∃ rs,
              fetch_all net (resolve origin <$> STATIC_CACHE) = Some rs ∧
              forallb addAll_accepts rs = true).
    { apply fetch_all_available. intros u Hu.
      apply list_elem_of_fmap in Hu as [q [-> Hq]]. by apply Hall. }
    destruct Hok as (rs & Hrs & Hacc).
    intros args. unfold install. destruct h as [st fs].
    unfold reliable in Hr. simpl in Hr. subst fs. gw_unfold.
    rewrite cache_addAll_reliable by done.
    cbn [outcome host events storage faults app]. rewrite Hrs, Hacc.
    cbn [outcome host events storage faults app].
    repeat (apply not_elem_of_cons; split; [discriminate|]).
    apply not_elem_of_nil.
  - assert (Hoff : OFFLINE_PAGE ∈ STATIC_CACHE).
    { unfold STATIC_CACHE, OFFLINE_PAGE.
      repeat (first [apply list_elem_of_here | apply list_elem_of_further]). }
    rewrite (Hpop _ Hoff). destruct (Hall _ Hoff) as (r & -> & _). eauto.
Qed.

Lemma online_manifest_available : manifest_available site online_net.
Proof. intros q _. eexists. split; reflexivity. Qed.

Lemma install_success_populates_witness :
  is_Some (storage_lookup CACHE_NAME (resolve site OFFLINE_PAGE)
             (storage (host (install site online_net empty_host)))).
Proof.
  apply (install_success_populates site online_net empty_host).
  - reflexivity.
  - exact online_manifest_available.
Defined.

(** ** From deployment to serving *)

Lemma install_then_activate_run origin net h :
  outcome (install origin net h) = Return tt →
  host (install_then_activate origin net h) =
    host (activate (host (install origin net h))) ∧
  outcome (install_then_activate origin net h) =
    outcome (activate (host (install origin net h))).
Proof.
  unfold install_then_activate, bind.
  destruct (install origin net h) as [o1 h1 ev1]. simpl. intros ->.
  destruct (activate h1) as [o2 h2 ev2]. done.
Qed.

(** With the offline page in the Cache Storage and a storage that does
    not fail, every request settles to a response object. *)
Lemma handleRequest_with_offline_page origin net request h :
  reliable h →
  is_Some (matched (storage h) (resolve origin OFFLINE_PAGE)) →
  ∃ r, outcome (handleRequest origin net request h) = Return (Some r).
Proof.
  intros Hr [p Hp].
  destruct (decide (destination request = "document")) as [Hd|Hd];
    [|by apply handleRequest_asset_total].
  rewrite (handleRequest_document_reliable _ _ _ _ Hd Hr), Hp.
  destruct (net (url request)) as [r|]; [destruct (ok r)|];
    try destruct (matched (storage h) (url request)); eauto.
Qed.

Lemma strip_fragment_app a b :
  fragment_free a → strip_fragment (a +:+ b) = a +:+ strip_fragment b.
Proof.
  unfold fragment_free. induction a as [|c a IH]; simpl; [done|].
  destruct (decide (c = "#"%char)); [done|].
  intros [= Ha].
  change (String c a +:+ strip_fragment b)
    with (String c (a +:+ strip_fragment b)).
  f_equal. by apply IH.
Qed.

Lemma offline_page_key origin :
  fragment_free origin →
  strip_fragment (resolve origin OFFLINE_PAGE) = resolve origin OFFLINE_PAGE.
Proof.
  intros Ho. unfold resolve, OFFLINE_PAGE. simpl.
  by rewrite strip_fragment_app.
Qed.

Lemma storage_match_storage_open name st k :
  storage_match (storage_open name st) k = storage_match st k.
Proof.
  induction st as [|[m c] st IH]; simpl; [by rewrite lookup_empty|].
  destruct (decide (m = name)); simpl; [done|]. by rewrite IH.
Qed.

Lemma storage_match_storage_put_is_Some name u r st k :
  is_Some (storage_match st k) →
  is_Some (storage_match (storage_put name u r st) k).
Proof.
  induction st as [|[m c] st IH]; simpl; [done|].
  destruct (decide (m = name)) as [->|Hm]; simpl.
  - destruct (decide (k = u)) as [->|Hk].
    + rewrite lookup_insert_eq. eauto.
    + rewrite lookup_insert_ne by congruence. done.
  - destruct (c !! k); [eauto | apply IH].
Qed.

Lemma handleRequest_reliable origin net request h :
  reliable h → reliable (host (handleRequest origin net request h)).
Proof.
  unfold reliable, handleRequest. destruct h as [st fs]. simpl. intros ->.
  destruct (decide (destination request = "document")); gw_unfold;
    repeat gw_case; reflexivity.
Qed.

(** Serving keeps the storage reliable and the offline page findable,
    whether or not the puts land. *)
Lemma serve_keeps_offline_page origin steps h :
  reliable h →
  is_Some (matched (storage h) (resolve origin OFFLINE_PAGE)) →
  reliable (serve origin steps h) ∧
  is_Some (matched (storage (serve origin steps h)) (resolve origin OFFLINE_PAGE)).
Proof.
  revert h. induction steps as [|[[net request] lands] steps IH];
    intros h Hr Hoff; [done|].
  simpl. apply IH.
  - pose proof (handleRequest_reliable origin net request h Hr) as Hr1.
    by destruct lands.
  - assert (Hhost : is_Some (matched
               (storage (host (handleRequest origin net request h)))
               (resolve origin OFFLINE_PAGE))).
    { unfold matched in *.
      destruct (handleRequest_storage origin net request h) as [->| ->];
        [done | by rewrite storage_match_storage_open]. }
    destruct lands; [|done].
    destruct (handleRequest_landed origin net request h)
      as [->|(r & _ & _ & ->)]; [done|].
    by apply storage_match_storage_put_is_Some.
Qed.

(** X11: deployment end to end, for a worker whose origin is a
    serialized origin (it carries no [#]).  If the storage calls do not
    fail and every manifest fetch settles to an accepted response, then
    after install followed by activate: both phases completed, the only
    cache left is the store of the current version, and it holds every
    manifest entry with the response the network gave.  From then on,
    after any run of requests served with any networks (their puts landed
    or not), the next request, document or not, is answered with a
    response object whatever the network does: every request of every
    run is. *)
Theorem deployed_gateway_always_responds origin net steps net' request h :
  fragment_free origin →
  reliable h →
  manifest_available origin net →
  outcome (install_then_activate origin net h) = Return tt ∧
  (∀ n, n ∈ cache_names (storage (host (install_then_activate origin net h))) ↔
        n = CACHE_NAME) ∧
  (∀ p, p ∈ STATIC_CACHE →
        storage_lookup CACHE_NAME (resolve origin p)
          (storage (host (install_then_activate origin net h))) =
        net (resolve origin p)) ∧
  ∃ r, outcome (handleRequest origin net' request
                  (serve origin steps
                     (host (install_then_activate origin net h)))) =
       Return (Some r).
Proof.
  intros Horigin Hr Hall.
  destruct (install_then_activate_retains_current origin net h Hr)
    as [Hout Hnames].
  destruct (install_reliable origin net h Hr) as (Hi & Hr1 & _ & _).
  destruct (install_then_activate_run origin net h Hi) as [Hhost _].
  destruct (activate_reliable _ Hr1) as (_ & Hr2 & _).
  assert (Hman : ∀ p, p ∈ STATIC_CACHE →
            storage_lookup CACHE_NAME (resolve origin p)
              (storage (host (install_then_activate origin net h))) =
            net (resolve origin p)).
  { intros p Hp. rewrite Hhost, activate_keeps_current_entries.
    by apply install_populates. }
  split; [done|]. split; [done|]. split; [done|].
  assert (Hoff : OFFLINE_PAGE ∈ STATIC_CACHE).
  { unfold STATIC_CACHE, OFFLINE_PAGE.
    repeat (first [apply list_elem_of_here | apply list_elem_of_further]). }
  destruct (Hall _ Hoff) as (page & Hpage & _).
  destruct (serve_keeps_offline_page origin steps
              (host (install_then_activate origin net h)))
    as [Hrs Hoffs].
  - by rewrite Hhost.
  - unfold matched. rewrite offline_page_key by done.
    apply (storage_lookup_match CACHE_NAME _ _ page).
    by rewrite (Hman _ Hoff).
  - by apply handleRequest_with_offline_page.
Qed.

Lemma deployed_gateway_always_responds_witness :
  ∃ r, outcome (handleRequest site offline_net
                  (mkRequest "GET" (site +:+ "/never-seen") "document")
                  (serve site
                     [(online_net,
                       mkRequest "GET" (site +:+ "/pricing") "document", true);
                      (server_error_net,
                       mkRequest "GET" (site +:+ "/assets/app.js") "script", false)]
                     (host (install_then_activate site online_net
                              (mkHost [("eternadata-v0.9.0", ∅)] []))))) =
       Return (Some r).
Proof.
  apply (deployed_gateway_always_responds site online_net
           [(online_net,
             mkRequest "GET" (site +:+ "/pricing") "document", true);
            (server_error_net,
             mkRequest "GET" (site +:+ "/assets/app.js") "script", false)]
           offline_net
           (mkRequest "GET" (site +:+ "/never-seen") "document")
           (mkHost [("eternadata-v0.9.0", ∅)] [])).
  - reflexivity.
  - reflexivity.
  - exact online_manifest_available.
Defined.

(** ** The fetch path and the set of caches *)

(** X12: handling a request never deletes a cache and creates none but
    the store of the current version: the cache names afterwards are the
    names before, plus possibly the current version tag. *)
Theorem handleRequest_cache_names origin net request h n :
  (n ∈ cache_names (storage h) →
   n ∈ cache_names (storage (host (handleRequest origin net request h)))) ∧
  (n ∈ cache_names (storage (host (handleRequest origin net request h))) →
   n ∈ cache_names (storage h) ∨ n = CACHE_NAME).
Proof.
  destruct (handleRequest_storage origin net request h) as [->| ->];
    rewrite ?cache_names_storage_open; tauto.
Qed.

(** ** Lookups after activation *)

Lemma storage_match_current_only (st : CacheStorage) u :
  NoDup (cache_names st) →
  storage_match (filter (fun p => p.1 = CACHE_NAME) st) u =
  storage_lookup CACHE_NAME u st.
Proof.
  unfold cache_names. induction st as [|[n c] st IH]; intros Hnd; [done|].
  rewrite fmap_cons in Hnd. apply NoDup_cons in Hnd as [Hn Hnd].
  rewrite filter_cons. simpl.
  destruct (decide (n = CACHE_NAME)) as [->|Hne].
  - assert (Hnone : filter (fun p : string * gmap string Response =>
                              p.1 = CACHE_NAME) st = []).
    { clear IH Hnd. induction st as [|[m d] st IHst]; [done|].
      rewrite fmap_cons, not_elem_of_cons in Hn. destruct Hn as [Hm Hn].
      rewrite filter_cons_False by (simpl; intros Heq; by apply Hm). by apply IHst. }
    rewrite Hnone. simpl. by destruct (c !! u).
  - by apply IH.
Qed.

(** X13: after an activation on a storage that does not fail (cache
    names being distinct, as in any Cache Storage), [caches.match] is
    answered from the store of the current version only: what a lookup
    finds for a URL is exactly that store's entry for it, so no cache of
    another version can supply or shadow a response any more. *)
Theorem activate_isolates_lookups h u :
  reliable h →
  NoDup (cache_names (storage h)) →
  storage_match (storage (host (activate h))) u =
  storage_lookup CACHE_NAME u (storage h).
Proof.
  intros Hr Hnd. destruct (activate_reliable h Hr) as (_ & _ & ->).
  by apply storage_match_current_only.
Qed.

Lemma activate_isolates_lookups_witness :
  storage_match
    (storage (host (activate
       (mkHost [("eternadata-v0.9.0", {[ "k" := mkResponse 200 "OK" "old" ]});
                ("eternadata-v1.0.0", ∅)] [])))) "k" = None.
Proof.
  rewrite (activate_isolates_lookups
     (mkHost [("eternadata-v0.9.0", {[ "k" := mkResponse 200 "OK" "old" ]});
              ("eternadata-v1.0.0", ∅)] []) "k").
  - reflexivity.
  - reflexivity.
  - unfold cache_names. simpl. repeat constructor.
    + intros Hin. apply list_elem_of_singleton in Hin. discriminate.
    + apply not_elem_of_nil.
Defined.

(** ** Robustness to a storage failure *)

(** X14: a single failing Cache Storage call never makes
    [handleRequest] throw: whatever the request and the network, if at
    most one call of the fault schedule fails, the handler settles to a
    value. *)
Theorem handleRequest_survives_one_failure origin net request h :
  (failures h ≤ 1)%nat →
  ∃ v, outcome (handleRequest origin net request h) = Return v.
Proof.
  unfold failures, handleRequest. destruct h as [st fs]. simpl.
  destruct (decide (destination request = "document")); gw_unfold;
    intros Hf; repeat gw_case; eauto;
    exfalso; rewrite ?filter_cons in Hf; simpl in Hf; lia.
Qed.

Lemma handleRequest_survives_one_failure_witness :
  ∃ v, outcome (handleRequest site offline_net
                  (mkRequest "GET" (site +:+ "/") "document")
                  (mkHost [] [true])) = Return v.
Proof.
  apply (handleRequest_survives_one_failure site offline_net
           (mkRequest "GET" (site +:+ "/") "document") (mkHost [] [true])).
  vm_compute. lia.
Defined.

Lemma cache_addAll_no_error_log origin net name requests h args :
  EConsoleError args ∉ events (cache_addAll origin net name requests h).
Proof.
  unfold cache_addAll. destruct h as [st fs]. gw_unfold.
  assert (Hf : ∀ urls : list string, EConsoleError args ∉ EFetch <$> urls).
  { intros urls Hin. apply list_elem_of_fmap in Hin as [? [? _]]. discriminate. }
  destruct fs as [|[] fs]; cbn [outcome host events storage faults app].
  all: try destruct (fetch_all net (resolve origin <$> requests)) as [rs|].
  all: try destruct (forallb addAll_accepts rs).
  all: cbn [outcome host events storage faults app].
  all: apply not_elem_of_cons; split;
         [discriminate | first [apply not_elem_of_nil | apply Hf]].
Qed.

(** A rejected [cache.addAll] has stored nothing. *)
Lemma cache_addAll_throw_storage origin net name requests h e :
  outcome (cache_addAll origin net name requests h) = Throw e →
  storage (host (cache_addAll origin net name requests h)) = storage h.
Proof.
  unfold cache_addAll. destruct h as [st fs]. gw_unfold.
  destruct fs as [|[] fs]; cbn [outcome host events storage faults app].
  all: try destruct (fetch_all net (resolve origin <$> requests)) as [rs|].
  all: try destruct (forallb addAll_accepts rs).
  all: cbn [outcome host events storage faults app]; done.
Qed.

(** ** Install never fails *)

(** X15: whatever the network and the storage do, the promise install
    hands to [waitUntil] fulfils, and [skipWaiting] is called as soon as
    the first log line is written and [caches.open] is issued: a failure
    to open the store or to fetch the manifest is only logged.  When such
    an error is logged, install has written no entry: the storage is as
    before, except that the store of the current version may have been
    created. *)
Theorem install_never_fails origin net h :
  outcome (install origin net h) = Return tt ∧
  (∃ rest, events (install origin net h) =
           EConsoleLog ["ServiceWorker installing..."] ::
           ECachesOpen CACHE_NAME :: ESkipWaiting :: rest) ∧
  ((∃ error, EConsoleError ["Failed to cache resources:"; error]
             ∈ events (install origin net h)) →
   storage (host (install origin net h)) = storage h ∨
   storage (host (install origin net h)) = storage_open CACHE_NAME (storage h)).
Proof.
  unfold install. destruct h as [st fs]. gw_unfold.
  destruct fs as [|[] fs]; cbn [outcome host events storage faults app];
    try (split; [done|]; split; [eauto|]; intros _; by left).
  all: match goal with
       | |- context [cache_addAll _ _ _ _ ?h1] =>
           pose proof (cache_addAll_throw_storage origin net CACHE_NAME
                         STATIC_CACHE h1) as Hthrow;
           pose proof (cache_addAll_no_error_log origin net CACHE_NAME
                         STATIC_CACHE h1) as Hlog;
           destruct (cache_addAll origin net CACHE_NAME STATIC_CACHE h1)
             as [[[]|e] h2 ev2]
       end;
       cbn [outcome host events storage faults app] in *.
  all: split; [done|]; split; [eauto|].
  all: first
    [ intros _; right; by rewrite (Hthrow e eq_refl)
    | intros [error Hin]; exfalso;
      repeat (apply elem_of_cons in Hin as [?|Hin]; [discriminate|]);
      by apply (Hlog _ Hin) ].
Qed.
